(** * VectorMind: the document chunking subsystem

    A shallow embedding of the splitter package of VectorMind
    (fixed-window chunker, delimiter chunker, markdown section splitter,
    markdown hierarchy renderer) and of the oversize subdivision done by
    the REST handlers and the MCP tools, with the properties stated for
    them in the specification.  The definitions come first: Go's values
    and the library functions the splitter calls, the splitter, the
    handlers; the properties follow.

    Go strings are byte sequences: a [string] of Go is a [list ascii]
    here, [len] is its length in bytes as a Go [int], and [s[lo:hi]] is
    [slice].  Go's [int] is a 64-bit two's complement integer: it is a
    [Z] with the wrap-around of [+] and [-] written out. *)

From Equations Require Import Equations.
From Stdlib Require Import ZArith Lia Ascii String.
From stdpp Require Import base list.

Local Open Scope Z_scope.

(** ** Go values *)

Abbreviation gostring := (list ascii).

(** A string literal as a Go string. *)
Definition str (s : string) : gostring := list_ascii_of_string s.
Arguments str s%_string.

Definition len {A} (s : list A) : Z := Z.of_nat (length s).

(** The value of a byte. *)
Definition byte (c : ascii) : Z := Z.of_N (N_of_ascii c).

(** The newline character. *)
Definition NL : ascii := ascii_of_nat 10.

Module GoInt.
Definition min_int : Z := - 2 ^ 63.
Definition max_int : Z := 2 ^ 63 - 1.
Definition is_int (z : Z) : Prop := min_int <= z <= max_int.
Definition wrap (z : Z) : Z := (z + 2 ^ 63) mod 2 ^ 64 - 2 ^ 63.
Definition add (a b : Z) : Z := wrap (a + b).
Definition sub (a b : Z) : Z := wrap (a - b).
End GoInt.

(** What a call does: it returns a value, it panics (a slice expression
    out of range), or the loop is still running when the fuel given to
    the model is used up. *)
Inductive outcome (A : Type) : Type :=
| Returns (a : A)
| Panics
| OutOfFuel.
Arguments Returns {A} a.
Arguments Panics {A}.
Arguments OutOfFuel {A}.

(** [s[lo:hi]]: Go panics unless [0 <= lo <= hi <= len(s)]. *)
Definition slice (s : gostring) (lo hi : Z) : option gostring :=
  if (0 <=? lo) && (lo <=? hi) && (hi <=? len s)
  then Some (take (Z.to_nat (hi - lo)) (drop (Z.to_nat lo) s))
  else None.

(** [s[lo:hi]] where the bounds are in range by construction. *)
Definition substring (s : gostring) (lo hi : nat) : gostring :=
  take (hi - lo) (drop lo s).

(** ** unicode/utf8 *)
Module utf8.
Definition RuneError : Z := 65533.
Definition RuneSelf : Z := 128.
Definition UTFMax : Z := 4.

(** An entry of the table [first]: what the first byte of a sequence
    says about it. *)
Inductive first_info : Type :=
| as_                                (* ASCII: size 1 *)
| xx                                 (* invalid: size 1 *)
| lead (size : nat) (lo hi : Z).     (* size, and the range accepted for the second byte *)

Definition locb : Z := 128.
Definition hicb : Z := 191.

Definition first (b : Z) : first_info :=
  if b <? 128 then as_
  else if b <? 194 then xx
  else if b <? 224 then lead 2 locb hicb
  else if b =? 224 then lead 3 160 hicb
  else if b <? 237 then lead 3 locb hicb
  else if b =? 237 then lead 3 locb 159
  else if b <? 240 then lead 3 locb hicb
  else if b =? 240 then lead 4 144 hicb
  else if b <? 244 then lead 4 locb hicb
  else if b =? 244 then lead 4 locb 143
  else xx.

Definition maskx : Z := 63.
Definition mask2 : Z := 31.
Definition mask3 : Z := 15.
Definition mask4 : Z := 7.

(** [DecodeRuneInString(s)]: the first rune of [s] and its width in bytes. *)
Definition DecodeRuneInString (s : gostring) : Z * nat :=
  match s with
  | [] => (RuneError, 0%nat)
  | c0 :: s' =>
      let s0 := byte c0 in
      match first s0 with
      | as_ => (s0, 1%nat)
      | xx => (RuneError, 1%nat)
      | lead sz lo hi =>
          if (length s <? sz)%nat then (RuneError, 1%nat) else
          let s1 := byte (nth 1 s zero) in
          if (s1 <? lo) || (hi <? s1) then (RuneError, 1%nat) else
          if (sz <=? 2)%nat then
            (Z.lor (Z.shiftl (Z.land s0 mask2) 6) (Z.land s1 maskx), 2%nat)
          else
          let s2 := byte (nth 2 s zero) in
          if (s2 <? locb) || (hicb <? s2) then (RuneError, 1%nat) else
          if (sz <=? 3)%nat then
            (Z.lor (Z.lor (Z.shiftl (Z.land s0 mask3) 12)
                          (Z.shiftl (Z.land s1 maskx) 6))
                   (Z.land s2 maskx), 3%nat)
          else
          let s3 := byte (nth 3 s zero) in
          if (s3 <? locb) || (hicb <? s3) then (RuneError, 1%nat) else
          (Z.lor (Z.lor (Z.lor (Z.shiftl (Z.land s0 mask4) 18)
                               (Z.shiftl (Z.land s1 maskx) 12))
                        (Z.shiftl (Z.land s2 maskx) 6))
                 (Z.land s3 maskx), 4%nat)
      end
  end.

(** [RuneStart(b)]: [b] is not a continuation byte. *)
Definition RuneStart (b : Z) : bool := negb (Z.land b 192 =? 128).

(** The loop [for start--; start >= lim; start--] of
    [DecodeLastRuneInString], which stops at a byte that starts a rune. *)
Fixpoint scan_back (n : nat) (s : gostring) (start lim : Z) : Z :=
  match n with
  | O => start
  | S n' =>
      if start >=? lim then
        if RuneStart (byte (nth (Z.to_nat start) s zero)) then start
        else scan_back n' s (start - 1) lim
      else start
  end.

(** [DecodeLastRuneInString(s)]: the last rune of [s] and its width. *)
Definition DecodeLastRuneInString (s : gostring) : Z * nat :=
  let end_ := len s in
  if end_ =? 0 then (RuneError, 0%nat) else
  let start := end_ - 1 in
  let r := byte (nth (Z.to_nat start) s zero) in
  if r <? RuneSelf then (r, 1%nat) else
  let lim := Z.max (end_ - UTFMax) 0 in
  let start := scan_back (Z.to_nat UTFMax) s (start - 1) lim in
  let start := if start <? 0 then 0 else start in
  let '(r, size) := DecodeRuneInString (drop (Z.to_nat start) s) in
  if negb (start + Z.of_nat size =? end_) then (RuneError, 1%nat)
  else (r, size).
End utf8.

(** A rune is at least one byte wide: what makes the loops over the runes
    of a string terminate. *)
Lemma DecodeRuneInString_size c s :
  (1 <= snd (utf8.DecodeRuneInString (c :: s)) <= 4)%nat.
Proof.
  unfold utf8.DecodeRuneInString.
  destruct (utf8.first (byte c)); simpl; try lia.
  repeat match goal with
         | |- context [if ?b then _ else _] => destruct b; simpl; try lia
         end.
Qed.

Lemma scan_back_le n s : forall start lim, utf8.scan_back n s start lim <= start.
Proof.
  induction n as [|n IH]; intros start lim; simpl; [lia|].
  destruct (start >=? lim); [|lia].
  destruct (utf8.RuneStart _); [lia|]. specialize (IH (start - 1) lim). lia.
Qed.

Lemma DecodeLastRuneInString_size c s :
  (1 <= snd (utf8.DecodeLastRuneInString (c :: s)))%nat.
Proof.
  unfold utf8.DecodeLastRuneInString. cbv zeta.
  destruct (Z.eqb_spec (len (c :: s)) 0) as [E|_];
    [unfold len in E; cbn [length] in E; lia|].
  match goal with
  | |- context [utf8.scan_back ?n ?l ?a ?b] =>
      pose proof (scan_back_le n l a b) as Hle;
      generalize dependent (utf8.scan_back n l a b)
  end.
  intros start Hle.
  destruct (_ <? utf8.RuneSelf); [simpl; lia|].
  destruct (utf8.DecodeRuneInString _) as [r size] eqn:Hd.
  destruct (negb _) eqn:Hn; simpl; [lia|].
  apply negb_false_iff, Z.eqb_eq in Hn.
  destruct size; [|lia]. exfalso.
  unfold len in *. cbn [length] in *.
  destruct (Z.ltb_spec start 0); lia.
Qed.

(** ** unicode *)
Module unicode.
(** [IsSpace(r)]: Latin-1 spaces, then the White_Space table. *)
Definition IsSpace (r : Z) : bool :=
  if r <=? 255 then
    (r =? 9) || (r =? 10) || (r =? 11) || (r =? 12) || (r =? 13) ||
    (r =? 32) || (r =? 133) || (r =? 160)
  else
    (r =? 5760) || ((8192 <=? r) && (r <=? 8202)) || (r =? 8232) ||
    (r =? 8233) || (r =? 8239) || (r =? 8287) || (r =? 12288).
End unicode.

(** ** strings

    The functions of Go's package strings that the splitter calls, after
    the standard library of Go 1.25, which the repository builds with. *)
Module strings.
Fixpoint HasPrefix (s prefix : gostring) {struct prefix} : bool :=
  match prefix, s with
  | [], _ => true
  | p :: prefix', c :: s' => if Ascii.eqb p c then HasPrefix s' prefix' else false
  | _ :: _, [] => false
  end.

(** [Index(s, substr)]: the first index of [substr] in [s]; [None] is -1. *)
Fixpoint Index (s substr : gostring) : option nat :=
  match s with
  | [] => if HasPrefix [] substr then Some 0%nat else None
  | _ :: s' =>
      if HasPrefix s substr then Some 0%nat
      else option_map S (Index s' substr)
  end.

(** An occurrence found by [Index] lies inside the string: what makes the
    loop of [Count] terminate. *)
Lemma HasPrefix_app s p : strings.HasPrefix s p = true -> s = p ++ drop (length p) s.
Proof.
  revert s. induction p as [|a p IH]; intros [|c s]; simpl; try discriminate; auto.
  destruct (Ascii.eqb_spec a c) as [->|]; [|discriminate].
  intros H. f_equal. apply IH, H.
Qed.

Lemma Index_Some s p i :
  strings.Index s p = Some i -> drop i s = p ++ drop (i + length p) s.
Proof.
  revert i. induction s as [|c s IH]; intros i; cbn [strings.Index].
  - destruct p; simpl; [|discriminate]. intros [= <-]. reflexivity.
  - destruct (strings.HasPrefix (c :: s) p) eqn:E.
    + intros [= <-]. apply HasPrefix_app in E. exact E.
    + destruct (strings.Index s p) eqn:E2; simpl; [|discriminate].
      intros [= <-]. simpl. apply IH. reflexivity.
Qed.

Lemma HasPrefix_length s p :
  strings.HasPrefix s p = true -> (length p <= length s)%nat.
Proof.
  intros H. apply HasPrefix_app in H. apply (f_equal (@length _)) in H.
  rewrite length_app in H. lia.
Qed.

Lemma Index_bound s p i :
  strings.Index s p = Some i -> (i + length p <= length s)%nat.
Proof.
  revert i. induction s as [|c s IH]; intros i; cbn [strings.Index].
  - destruct p; simpl; [|discriminate]. intros [= <-]. simpl. lia.
  - destruct (strings.HasPrefix (c :: s) p) eqn:E.
    + intros [= <-]. apply HasPrefix_length in E. lia.
    + destruct (strings.Index s p) eqn:E2; simpl; [|discriminate].
      intros [= <-]. specialize (IH _ eq_refl). lia.
Qed.

(** The loop of [Count(s, substr)], which [Count] enters with a [substr]
    that is not empty:
    [for { i := Index(s, substr); if i == -1 { return n }; n++;
    s = s[i+len(substr):] }]. *)
Equations? Count_loop (s substr : gostring) (n : nat) : nat
  by wf (length s) lt :=
Count_loop s [] n := n;
Count_loop s (c :: d) n
  with Equations.Prop.Logic.inspect (Index s (c :: d)) => {
  | exist _ None _ := n
  | exist _ (Some i) H :=
      Count_loop (drop (i + length (c :: d)) s) (c :: d) (S n) }.
Proof.
  apply Index_bound in H. rewrite length_drop. cbn [length] in *. lia.
Qed.

(** [utf8.RuneCountInString(s)]: [for range s { n++ }]. *)
Equations? RuneCountInString (s : gostring) : nat by wf (length s) lt :=
RuneCountInString [] := 0%nat;
RuneCountInString (c :: s') :=
  S (RuneCountInString (drop (snd (utf8.DecodeRuneInString (c :: s'))) (c :: s'))).
Proof.
  pose proof (DecodeRuneInString_size c s'). rewrite length_drop.
  cbn [length]. lia.
Qed.

Definition Count (s substr : gostring) : nat :=
  match substr with
  | [] => S (RuneCountInString s)
  | _ => Count_loop s substr 0
  end.

(** [explode(s, -1)]: one string per rune, invalid bytes one by one. *)
Fixpoint explode_loop (k : nat) (s : gostring) : list gostring :=
  match k with
  | O => [s]
  | S k' =>
      let size := snd (utf8.DecodeRuneInString s) in
      take size s :: explode_loop k' (drop size s)
  end.

Definition explode (s : gostring) : list gostring :=
  match RuneCountInString s with
  | O => []
  | S k => explode_loop k s
  end.

(** The loop of [genSplit] with [k] turns left:
    [for i < n { m := Index(s, sep); if m < 0 { break };
    a[i] = s[:m]; s = s[m+len(sep):]; i++ }; a[i] = s]. *)
Fixpoint genSplit_loop (k : nat) (s sep : gostring) : list gostring :=
  match k with
  | O => [s]
  | S k' =>
      match Index s sep with
      | None => [s]
      | Some m => take m s :: genSplit_loop k' (drop (m + length sep) s) sep
      end
  end.

(** [Split(s, sep)] is [genSplit(s, sep, 0, -1)]. *)
Definition Split (s sep : gostring) : list gostring :=
  match sep with
  | [] => explode s
  | _ =>
      let n := S (Count s sep) in
      let n := if (S (length s) <? n)%nat then S (length s) else n in
      genSplit_loop (n - 1) s sep
  end.

Fixpoint Join (elems : list gostring) (sep : gostring) : gostring :=
  match elems with
  | [] => []
  | [e] => e
  | e :: rest => e ++ sep ++ Join rest sep
  end.

(** [indexFunc(s, f, truth)]: [for i, r := range s { if f(r) == truth
    { return i } }; return -1]. *)
Equations? indexFunc (s : gostring) (f : Z -> bool) (truth : bool) : option nat
  by wf (length s) lt :=
indexFunc [] f truth := None;
indexFunc (c :: s') f truth :=
  let d := utf8.DecodeRuneInString (c :: s') in
  if Bool.eqb (f (fst d)) truth then Some 0%nat
  else option_map (Nat.add (snd d)) (indexFunc (drop (snd d) (c :: s')) f truth).
Proof.
  pose proof (DecodeRuneInString_size c s'). rewrite length_drop.
  cbn [length]. subst d. lia.
Qed.

(** [lastIndexFunc(s, f, truth)]: [for i := len(s); i > 0; { r, size :=
    utf8.DecodeLastRuneInString(s[0:i]); i -= size; if f(r) == truth
    { return i } }; return -1].  The argument is the prefix [s[0:i]]
    that the loop still has to look at. *)
Equations? lastIndexFunc (s : gostring) (f : Z -> bool) (truth : bool)
  : option nat by wf (length s) lt :=
lastIndexFunc [] f truth := None;
lastIndexFunc (c :: s') f truth :=
  let d := utf8.DecodeLastRuneInString (c :: s') in
  let i := (length (c :: s') - snd d)%nat in
  if Bool.eqb (f (fst d)) truth then Some i
  else lastIndexFunc (take i (c :: s')) f truth.
Proof.
  pose proof (DecodeLastRuneInString_size c s'). rewrite length_take.
  cbn [length] in *. subst i d. lia.
Qed.

Definition TrimLeftFunc (s : gostring) (f : Z -> bool) : gostring :=
  match indexFunc s f false with
  | None => []
  | Some i => drop i s
  end.

Definition TrimRightFunc (s : gostring) (f : Z -> bool) : gostring :=
  match lastIndexFunc s f false with
  | Some i =>
      if utf8.RuneSelf <=? byte (nth i s zero)
      then take (i + snd (utf8.DecodeRuneInString (drop i s))) s
      else take (S i) s
  | None => []
  end.

Definition TrimFunc (s : gostring) (f : Z -> bool) : gostring :=
  TrimRightFunc (TrimLeftFunc s f) f.

(** The table [asciiSpace]. *)
Definition asciiSpace (c : ascii) : bool :=
  let b := byte c in
  (b =? 9) || (b =? 10) || (b =? 11) || (b =? 12) || (b =? 13) || (b =? 32).

(** The fast path of [TrimSpace] from one end: the bytes left when the
    ASCII spaces are skipped, and whether the scan met a byte that is
    not ASCII. *)
Fixpoint skip_ascii_space (s : gostring) : gostring * bool :=
  match s with
  | [] => ([], false)
  | c :: s' =>
      if utf8.RuneSelf <=? byte c then (s, true)
      else if asciiSpace c then skip_ascii_space s'
      else (s, false)
  end.

Definition TrimSpace (s : gostring) : gostring :=
  let '(s1, slow) := skip_ascii_space s in
  if slow then TrimFunc s1 unicode.IsSpace
  else
    let '(r, slow) := skip_ascii_space (rev s1) in
    if slow then TrimRightFunc (rev r) unicode.IsSpace
    else rev r.
End strings.

(** The bytes that [TrimSpace] handles on its ASCII path, used to state
    what trimming keeps. *)

(** An ASCII byte that [TrimSpace] does not take for a space. *)
Definition ascii_non_space (c : ascii) : Prop :=
  byte c < 128 /\ strings.asciiSpace c = false.

(** An ASCII space. *)
Definition ascii_space (c : ascii) : Prop :=
  byte c < 128 /\ strings.asciiSpace c = true.


(** ** regexp: the two patterns of the splitter

    The pattern is [(?m)^\s*#+\s+.*$]; [ExtractSectionHeader] uses it
    with a group around [#+\s+.*], which matches the same text.  In
    RE2 [\s] is [[\t\n\f\r ]], [.] is any character but a newline, and
    with [(?m)] [^] holds at the start of the text and after a newline,
    [$] at its end and before a newline.  Every repetition is greedy and
    none can give back a character to what follows it (a space is no
    [#], a [#] is no space, and [.*] stops where [$] holds), so the
    leftmost-first match at a line start is the one that takes the
    longest run each time. *)
Module regexp.
Definition is_space (c : ascii) : bool :=
  let b := byte c in
  (b =? 9) || (b =? 10) || (b =? 12) || (b =? 13) || (b =? 32).
Definition is_hash (c : ascii) : bool := byte c =? 35.
Definition is_newline (c : ascii) : bool := byte c =? 10.

(** The length of the longest prefix of [s] whose characters satisfy [p]. *)
Fixpoint run (p : ascii -> bool) (s : gostring) : nat :=
  match s with
  | c :: s' => if p c then S (run p s') else O
  | [] => O
  end.

(** A match, by the lengths of its four parts: [\s*], [#+], [\s+], [.*]. *)
Record header_match : Type := {
  lead : nat;
  hashes : nat;
  gap : nat;
  title : nat
}.

Definition match_length (m : header_match) : nat :=
  (lead m + hashes m + gap m + title m)%nat.

(** The match of the pattern that starts at the beginning of [s], which
    is at a line start. *)
Definition match_header (s : gostring) : option header_match :=
  let n1 := run is_space s in
  let s1 := drop n1 s in
  let n2 := run is_hash s1 in
  let s2 := drop n2 s1 in
  let n3 := run is_space s2 in
  let s3 := drop n3 s2 in
  let n4 := run (fun c => negb (is_newline c)) s3 in
  if (n2 =? 0)%nat || (n3 =? 0)%nat then None
  else Some {| lead := n1; hashes := n2; gap := n3; title := n4 |}.

Definition line_start (text : gostring) (p : nat) : bool :=
  match p with
  | O => true
  | S p' => is_newline (nth p' text zero)
  end.

(** The successive matches in [text]: each start position in turn, from
    the end [pos] of the match before. *)
Fixpoint find_all (text : gostring) (starts : list nat) (pos : nat)
  : list (nat * header_match) :=
  match starts with
  | [] => []
  | p :: starts' =>
      if (pos <=? p)%nat && line_start text p then
        match match_header (drop p text) with
        | Some m => (p, m) :: find_all text starts' (p + match_length m)
        | None => find_all text starts' pos
        end
      else find_all text starts' pos
  end.

Definition find_headers (text : gostring) : list (nat * header_match) :=
  find_all text (seq 0 (length text)) 0.

(** [headerRegex.FindAllStringIndex(text, -1)]: start and end of each match. *)
Definition FindAllStringIndex (text : gostring) : list (nat * nat) :=
  map (fun pm => (fst pm, (fst pm + match_length (snd pm))%nat))
      (find_headers text).

(** [headerRegex.FindStringSubmatch(text)]: the first match and its
    group 1; [None] is nil. *)
Definition FindStringSubmatch (text : gostring) : option (gostring * gostring) :=
  match find_headers text with
  | [] => None
  | (p, m) :: _ =>
      Some (substring text p (p + match_length m),
            substring text (p + lead m) (p + match_length m))
  end.
End regexp.

(** ** splitter/split-with-delimiter.go *)

Definition SplitTextWithDelimiter (text delimiter : gostring) : list gostring :=
  strings.Split text delimiter.

(** The loop of [ExtractFirstNonEmptyLines] over the lines. *)
Fixpoint firstNonEmptyLines (lines : list gostring) (n : Z)
    (nonEmptyLines : list gostring) : list gostring :=
  match lines with
  | [] => nonEmptyLines
  | line :: lines' =>
      let trimmed := strings.TrimSpace line in
      if bool_decide (trimmed <> []) then
        let nonEmptyLines := nonEmptyLines ++ [trimmed] in
        if len nonEmptyLines >=? n then nonEmptyLines
        else firstNonEmptyLines lines' n nonEmptyLines
      else firstNonEmptyLines lines' n nonEmptyLines
  end.

Definition ExtractFirstNonEmptyLines (text : gostring) (n : Z) : gostring :=
  if bool_decide (text = []) || (n <=? 0) then []
  else
    let lines := strings.Split text [NL] in
    strings.Join (firstNonEmptyLines lines n []) [NL].

(** ** splitter/split-markdown-sections.go *)

Definition ExtractSectionHeader (section : gostring) : gostring :=
  if bool_decide (section = []) then []
  else
    match regexp.FindStringSubmatch section with
    | Some (_, group1) => strings.TrimSpace group1
    | None => []
    end.

(** The loop [for i, match := range headerMatches] of
    [SplitMarkdownBySections]. *)
Fixpoint sections_loop (markdown : gostring) (headerMatches : list (nat * nat))
  : list gostring :=
  match headerMatches with
  | [] => []
  | (start, _) :: rest =>
      let end_ :=
        match rest with
        | (next, _) :: _ => next
        | [] => length markdown
        end in
      let section := strings.TrimSpace (substring markdown start end_) in
      (if bool_decide (section <> []) then [section] else [])
        ++ sections_loop markdown rest
  end.

Definition SplitMarkdownBySections (markdown : gostring) : list gostring :=
  if bool_decide (markdown = []) then []
  else
    let headerMatches := regexp.FindAllStringIndex markdown in
    match headerMatches with
    | [] => [strings.TrimSpace markdown]
    | (first, _) :: _ =>
        let sections :=
          if (0 <? first)%nat then
            let preHeader := strings.TrimSpace (substring markdown 0 first) in
            if bool_decide (preHeader <> []) then [preHeader] else []
          else [] in
        sections ++ sections_loop markdown headerMatches
    end.

(** ** splitter/split-markdown-with-hierarchy.go

    The file is not among the sources: its tests and its callers are.
    [MarkdownChunk] has the fields that the tests set and read; the
    functions are modelled from section 4.4 of the specification. *)

Record MarkdownChunk : Type := {
  Header : gostring;
  Content : gostring;
  Level : Z;
  Prefix : gostring;
  ParentLevel : Z;
  ParentHeader : gostring;
  ParentPrefix : gostring;
  Hierarchy : gostring
}.

(** Modelled from the spec: [buildHierarchy] is missing; step 2c joins
    the heading text of every entry of the stack, root first, and the
    heading's own text with [" > "]. *)
Definition buildHierarchy (stack : list MarkdownChunk) (currentHeader : gostring)
  : gostring :=
  strings.Join (map Header stack ++ [currentHeader]) (str " > ").

(** Modelled from the spec: the pop of step 2a is missing; while the top
    of the stack (its last entry) has a level at least [level], it is
    popped. *)
Fixpoint pop_stack (level : Z) (stack : list MarkdownChunk) : list MarkdownChunk :=
  match stack with
  | [] => []
  | e :: above =>
      match pop_stack level above with
      | [] => if Level e >=? level then [] else [e]
      | kept => e :: kept
      end
  end.

(** Modelled from the spec: the scan of steps 1 and 2d is missing; the
    heading lines are those of the section splitter's pattern, a heading
    gives its marker, its text and the text up to the next heading line
    (or the end), which the tests want without the surrounding blanks. *)
Fixpoint headings (markdown : gostring) (ms : list (nat * regexp.header_match))
  : list (gostring * gostring * gostring) :=
  match ms with
  | [] => []
  | (p, m) :: rest =>
      let hashAt := (p + regexp.lead m)%nat in
      let titleAt := (hashAt + regexp.hashes m + regexp.gap m)%nat in
      let end_ := (p + regexp.match_length m)%nat in
      let next :=
        match rest with
        | (q, _) :: _ => q
        | [] => length markdown
        end in
      (substring markdown hashAt (hashAt + regexp.hashes m),
       substring markdown titleAt end_,
       strings.TrimSpace (substring markdown end_ next))
        :: headings markdown rest
  end.

(** Modelled from the spec: the pass of step 2 is missing; for each
    heading in turn: pop, read the parent off the top of the stack, build
    the path, push the node and emit it. *)
Fixpoint parse_headings (stack : list MarkdownChunk)
    (hs : list (gostring * gostring * gostring)) : list MarkdownChunk :=
  match hs with
  | [] => []
  | (prefix, header, content) :: rest =>
      let level := len prefix in
      let stack := pop_stack level stack in
      let chunk :=
        match last stack with
        | Some parent =>
            {| Header := header; Content := content;
               Level := level; Prefix := prefix;
               ParentLevel := Level parent;
               ParentHeader := Header parent;
               ParentPrefix := Prefix parent;
               Hierarchy := buildHierarchy stack header |}
        | None =>
            {| Header := header; Content := content;
               Level := level; Prefix := prefix;
               ParentLevel := 0; ParentHeader := []; ParentPrefix := [];
               Hierarchy := buildHierarchy stack header |}
        end in
      chunk :: parse_headings (stack ++ [chunk]) rest
  end.

(** Modelled from the spec: [ParseMarkdownHierarchy] is missing. *)
Definition ParseMarkdownHierarchy (markdown : gostring) : list MarkdownChunk :=
  parse_headings [] (headings markdown (regexp.find_headers markdown)).

(** Modelled from the spec: the rendering of a node is missing; three
    labelled parts joined by newlines. *)
Definition render (chunk : MarkdownChunk) : gostring :=
  str "TITLE: " ++ Prefix chunk ++ str " " ++ Header chunk ++ [NL]
    ++ str "HIERARCHY: " ++ Hierarchy chunk ++ [NL]
    ++ str "CONTENT: " ++ Content chunk.

(** Modelled from the spec: [ChunkWithMarkdownHierarchy] is missing. *)
Definition ChunkWithMarkdownHierarchy (markdown : gostring) : list gostring :=
  map render (ParseMarkdownHierarchy markdown).

(** The lines of a chunk, as the format test reads them:
    [strings.Split(chunk, "\n")]. *)
Definition lines (chunk : gostring) : list gostring :=
  strings.Split chunk [NL].

(** No newline in a string. *)
Definition no_newline (s : gostring) : bool :=
  forallb (fun c => negb (regexp.is_newline c)) s.

(** What makes the first two lines of a rendered chunk two lines. *)
Definition one_line_fields (chunk : MarkdownChunk) : Prop :=
  no_newline (Prefix chunk) = true /\ no_newline (Header chunk) = true /\
  no_newline (Hierarchy chunk) = true.

(** ** splitter/chunk-overlap.go *)

(** The loop of [ChunkText]:
    [for start := 0; start < len(text); start += chunkSize - overlap]. *)
Fixpoint ChunkText_loop (fuel : nat) (text : gostring)
    (chunkSize overlap start : Z) (chunks : list gostring)
  : outcome (list gostring) :=
  match fuel with
  | O => OutOfFuel
  | S fuel' =>
      if start <? len text then
        let end_ := Z.min (GoInt.add start chunkSize) (len text) in
        match slice text start end_ with
        | None => Panics
        | Some chunk =>
            ChunkText_loop fuel' text chunkSize overlap
              (GoInt.add start (GoInt.sub chunkSize overlap))
              (chunks ++ [chunk])
        end
      else Returns chunks
  end.

Definition ChunkText (fuel : nat) (text : gostring) (chunkSize overlap : Z)
  : outcome (list gostring) :=
  ChunkText_loop fuel text chunkSize overlap 0 [].

(** The windows of [text] of size [cs] that start at [start],
    [start + st], ... ([n] of them). *)
Fixpoint windows (text : gostring) (cs st start n : nat) : list gostring :=
  match n with
  | O => []
  | S n' => take cs (drop start text) :: windows text cs st (start + st) n'
  end.

(** Chunk number [i] of a run with stride [st] starts at byte [i * st]:
    [covers] says that every byte position of the text lies in a chunk. *)
Definition covers (text : gostring) (st : nat) (chunks : list gostring) : Prop :=
  forall p : nat, (p < length text)%nat ->
    exists (i : nat) (c : gostring),
      chunks !! i = Some c /\ (i * st <= p < i * st + length c)%nat.

(** Every chunk but the last has length exactly [chunkSize]. *)
Definition all_but_last_full (chunkSize : Z) (chunks : list gostring) : Prop :=
  forall (i : nat) (c : gostring),
    chunks !! i = Some c -> (S i < length chunks)%nat -> len c = chunkSize.

(** ** api/chunk-overlap-handler.go and mcptools/tool_chunking.go *)

Module Api.
(** models.ChunkAndStoreRequest, as decoded from the request body. *)
Record ChunkAndStoreRequest : Type := {
  Document : gostring;
  Label : gostring;
  Metadata : gostring;
  ChunkSize : Z;
  Overlap : Z
}.

(** The error responses of the handler before anything is stored. *)
Inductive chunk_error : Type :=
| DocumentRequired           (* "Document is required" *)
| ChunkSizeNotPositive       (* "ChunkSize must be greater than 0" *)
| OverlapNegative            (* "Overlap cannot be negative" *)
| OverlapNotBelowChunkSize   (* "Overlap must be less than ChunkSize" *)
| ChunkSizeAboveDimension    (* "ChunkSize (%d) must be less than or equal
                                 to embedding dimension (%d)" *)
| NoChunksGenerated.         (* "No chunks generated from the document" *)

(** The checks of [ChunkAndStoreHandler] on a decoded request, in the
    order of the source; [None] when all of them pass. *)
Definition validate (req : ChunkAndStoreRequest) (embeddingDim : Z)
  : option chunk_error :=
  if bool_decide (Document req = []) then Some DocumentRequired
  else if ChunkSize req <=? 0 then Some ChunkSizeNotPositive
  else if Overlap req <? 0 then Some OverlapNegative
  else if Overlap req >=? ChunkSize req then Some OverlapNotBelowChunkSize
  else if ChunkSize req >? embeddingDim then Some ChunkSizeAboveDimension
  else None.

(** [ChunkAndStoreHandler] up to the chunks it goes on to embed and
    store. *)
Definition ChunkAndStoreHandler_chunks (fuel : nat)
    (req : ChunkAndStoreRequest) (embeddingDim : Z)
  : chunk_error + outcome (list gostring) :=
  match validate req embeddingDim with
  | Some e => inl e
  | None =>
      match ChunkText fuel (Document req) (ChunkSize req) (Overlap req) with
      | Returns chunks =>
          if len chunks =? 0 then inl NoChunksGenerated
          else inr (Returns chunks)
      | o => inr o
      end
  end.
End Api.

(** ** mcptools/tool_markdown.go

    The three tools up to the chunks they go on to embed and store, one
    after the other; the REST handlers of package api do the same. *)

Module Mcptools.
Inductive tool_error : Type :=
| DocumentRequired      (* "document parameter is required" *)
| DelimiterRequired     (* "delimiter parameter is required" *)
| NoSectionsGenerated   (* "No sections generated from the document" *)
| NoChunksGenerated.    (* "No chunks generated from the document" *)

(** [for i := 1; i < len(chunksToStore); i++ {
      chunksToStore[i] = header + "\n\n" + chunksToStore[i] }]. *)
Definition prepend_header (header : gostring) (chunksToStore : list gostring)
  : list gostring :=
  match chunksToStore with
  | [] => []
  | first :: rest => first :: map (fun c => header ++ [NL; NL] ++ c) rest
  end.

(** The body of the loop over the pieces in the section tool and in the
    delimiter tool, given the header extracted from the piece. *)
Definition chunksToStore_with_header (fuel : nat) (embeddingDim : Z)
    (piece header : gostring) : outcome (list gostring) :=
  if len piece >? embeddingDim then
    match ChunkText fuel piece embeddingDim 0 with
    | Returns chunksToStore =>
        if bool_decide (header <> []) && (len chunksToStore >? 1)
        then Returns (prepend_header header chunksToStore)
        else Returns chunksToStore
    | o => o
    end
  else Returns [piece].

Definition section_chunksToStore (fuel : nat) (embeddingDim : Z)
    (section : gostring) : outcome (list gostring) :=
  let sectionHeader := ExtractSectionHeader section in
  chunksToStore_with_header fuel embeddingDim section sectionHeader.

Definition delimiter_chunksToStore (fuel : nat) (embeddingDim : Z)
    (chunk : gostring) : outcome (list gostring) :=
  let chunkHeader := ExtractFirstNonEmptyLines chunk 2 in
  chunksToStore_with_header fuel embeddingDim chunk chunkHeader.

(** The body of the loop over the chunks in the hierarchy tool. *)
Definition hierarchy_chunksToStore (fuel : nat) (embeddingDim : Z)
    (chunk : gostring) : outcome (list gostring) :=
  if len chunk >? embeddingDim then ChunkText fuel chunk embeddingDim 0
  else Returns [chunk].

(** The outer loop: the chunks stored for all the pieces, in order. *)
Fixpoint store_all (body : gostring -> outcome (list gostring))
    (pieces : list gostring) : outcome (list gostring) :=
  match pieces with
  | [] => Returns []
  | piece :: rest =>
      match body piece with
      | Returns chunksToStore =>
          match store_all body rest with
          | Returns stored => Returns (chunksToStore ++ stored)
          | o => o
          end
      | o => o
      end
  end.

Definition split_and_store_markdown_sections (fuel : nat) (embeddingDim : Z)
    (document : gostring) : tool_error + outcome (list gostring) :=
  if bool_decide (document = []) then inl DocumentRequired
  else
    let sections := SplitMarkdownBySections document in
    if len sections =? 0 then inl NoSectionsGenerated
    else inr (store_all (section_chunksToStore fuel embeddingDim) sections).

Definition split_and_store_with_delimiter (fuel : nat) (embeddingDim : Z)
    (document delimiter : gostring) : tool_error + outcome (list gostring) :=
  if bool_decide (document = []) then inl DocumentRequired
  else if bool_decide (delimiter = []) then inl DelimiterRequired
  else
    let chunks := SplitTextWithDelimiter document delimiter in
    if len chunks =? 0 then inl NoChunksGenerated
    else inr (store_all (delimiter_chunksToStore fuel embeddingDim) chunks).

Definition split_and_store_markdown_with_hierarchy (fuel : nat)
    (embeddingDim : Z) (document : gostring)
  : tool_error + outcome (list gostring) :=
  if bool_decide (document = []) then inl DocumentRequired
  else
    let chunks := ChunkWithMarkdownHierarchy document in
    if len chunks =? 0 then inl NoChunksGenerated
    else inr (store_all (hierarchy_chunksToStore fuel embeddingDim) chunks).
End Mcptools.

(** * Properties *)

(** ** Go integers and slices *)

Lemma wrap_id z : GoInt.is_int z -> GoInt.wrap z = z.
Proof.
  unfold GoInt.is_int, GoInt.wrap, GoInt.min_int, GoInt.max_int. intros H.
  rewrite Z.mod_small; lia.
Qed.

Lemma wrap_is_int z : GoInt.is_int (GoInt.wrap z).
Proof.
  unfold GoInt.is_int, GoInt.wrap, GoInt.min_int, GoInt.max_int.
  pose proof (Z.mod_pos_bound (z + 2 ^ 63) (2 ^ 64) ltac:(lia)). lia.
Qed.

Lemma slice_Some s lo hi c :
  slice s lo hi = Some c ->
  0 <= lo <= hi /\ hi <= len s /\
  c = take (Z.to_nat (hi - lo)) (drop (Z.to_nat lo) s).
Proof.
  unfold slice. destruct (Z.leb_spec 0 lo); [|discriminate].
  destruct (Z.leb_spec lo hi); [|discriminate].
  destruct (Z.leb_spec hi (len s)); [|discriminate].
  simpl. intros [= <-]. repeat split; lia || reflexivity.
Qed.

Lemma slice_ok s lo hi :
  0 <= lo <= hi -> hi <= len s ->
  slice s lo hi = Some (take (Z.to_nat (hi - lo)) (drop (Z.to_nat lo) s)).
Proof.
  intros [H1 H2] H3. unfold slice.
  destruct (Z.leb_spec 0 lo); [|lia].
  destruct (Z.leb_spec lo hi); [|lia].
  destruct (Z.leb_spec hi (len s)); [|lia]. reflexivity.
Qed.

Lemma slice_bad s lo hi : hi < lo -> slice s lo hi = None.
Proof.
  intros H. unfold slice. destruct (Z.leb_spec lo hi); [lia|].
  now rewrite andb_false_r.
Qed.

(** ** The fixed-window chunker *)

Lemma windows_length text cs st start n :
  length (windows text cs st start n) = n.
Proof. revert start. induction n; intros; simpl; auto. Qed.

Lemma windows_lookup text cs st n : forall start i,
  (i < n)%nat ->
  windows text cs st start n !! i = Some (take cs (drop (start + i * st) text)).
Proof.
  induction n; intros start i Hi; [lia|].
  destruct i; simpl.
  - do 3 f_equal. lia.
  - rewrite IHn by lia. do 3 f_equal. lia.
Qed.

Lemma windows_lookup_inv text cs st n start i c :
  windows text cs st start n !! i = Some c ->
  (i < n)%nat /\ c = take cs (drop (start + i * st) text).
Proof.
  intros H. assert (Hi : (i < n)%nat).
  { apply lookup_lt_Some in H. rewrite windows_length in H. exact H. }
  split; [exact Hi|]. rewrite windows_lookup in H by exact Hi. congruence.
Qed.

Section ChunkText_valid.
Variables (text : gostring) (chunkSize overlap : Z).
Hypothesis Hsize : 0 < chunkSize.
Hypothesis Hoverlap : 0 <= overlap < chunkSize.
Hypothesis Hint : GoInt.is_int chunkSize.
Hypothesis Hlen : len text <= GoInt.max_int.

Let cs : nat := Z.to_nat chunkSize.
Let st : nat := Z.to_nat (chunkSize - overlap).

Lemma stride_bounds : (1 <= st <= cs)%nat.
Proof. subst st cs. lia. Qed.

Lemma stride_sub : GoInt.sub chunkSize overlap = Z.of_nat st.
Proof.
  unfold GoInt.sub. rewrite wrap_id; [subst st; lia|].
  unfold GoInt.is_int, GoInt.min_int, GoInt.max_int in *. lia.
Qed.

(** One turn of the loop at [start < len(text)]: the slice expression
    is in range exactly when [start + chunkSize] does not overflow. *)
Lemma ChunkText_window start :
  (start < length text)%nat ->
  slice text (Z.of_nat start)
    (Z.min (GoInt.add (Z.of_nat start) chunkSize) (len text))
  = if Z.of_nat start + chunkSize <=? GoInt.max_int
    then Some (take cs (drop start text)) else None.
Proof.
  intros Hlt. unfold len, GoInt.is_int, GoInt.min_int, GoInt.max_int in *.
  destruct (Z.leb_spec (Z.of_nat start + chunkSize) (2 ^ 63 - 1)) as [Hno|Hov].
  - unfold GoInt.add. rewrite wrap_id
      by (unfold GoInt.is_int, GoInt.min_int, GoInt.max_int; lia).
    rewrite slice_ok by (unfold len; lia). f_equal. rewrite Nat2Z.id.
    destruct (Z.min_spec (Z.of_nat start + chunkSize) (Z.of_nat (length text)))
      as [[_ ->]|[Hm ->]].
    + f_equal. subst cs. lia.
    + rewrite !take_ge; auto; rewrite length_drop; subst cs; lia.
  - assert (Hneg : GoInt.add (Z.of_nat start) chunkSize < 0).
    { unfold GoInt.add, GoInt.wrap.
      replace (Z.of_nat start + chunkSize + 2 ^ 63)
        with ((Z.of_nat start + chunkSize - 2 ^ 63) + 1 * 2 ^ 64) by lia.
      rewrite Z.mod_add by lia. rewrite Z.mod_small; lia. }
    apply slice_bad. lia.
Qed.

Lemma ChunkText_next start :
  Z.of_nat start + chunkSize <= GoInt.max_int ->
  GoInt.add (Z.of_nat start) (GoInt.sub chunkSize overlap)
  = Z.of_nat (start + st).
Proof.
  intros Hno. rewrite stride_sub. unfold GoInt.add.
  pose proof stride_bounds.
  rewrite wrap_id; [lia|].
  unfold GoInt.is_int, GoInt.min_int, GoInt.max_int in *. subst cs. lia.
Qed.

(** Whatever the loop returns from [start] on is a run of windows that
    reaches the end of the text and not further than needed. *)
Lemma ChunkText_loop_inv fuel : forall start acc chunks,
  ChunkText_loop fuel text chunkSize overlap (Z.of_nat start) acc
    = Returns chunks ->
  exists n,
    chunks = acc ++ windows text cs st start n /\
    (length text <= start + n * st)%nat /\
    (0 < n -> start + (n - 1) * st < length text)%nat /\
    ((0 < n)%nat ->
     Z.of_nat (start + (n - 1) * st) + chunkSize <= GoInt.max_int).
Proof.
  pose proof stride_bounds as Hst.
  induction fuel as [|fuel IH]; intros start acc chunks; [discriminate|].
  simpl. unfold len at 1.
  destruct (Z.ltb_spec (Z.of_nat start) (Z.of_nat (length text))) as [Hlt|Hge].
  - rewrite ChunkText_window by lia.
    destruct (Z.leb_spec (Z.of_nat start + chunkSize) GoInt.max_int)
      as [Hno|Hov]; [|discriminate].
    rewrite ChunkText_next by exact Hno. intros Hrun.
    apply IH in Hrun as (n & -> & Hreach & Hlast & Hmax).
    exists (S n). rewrite <- app_assoc. split; [reflexivity|].
    split; [lia|]. destruct n as [|n].
    + simpl. split; intros _; [lia|]. replace (start + 0)%nat with start by lia.
      exact Hno.
    + specialize (Hlast ltac:(lia)). specialize (Hmax ltac:(lia)).
      simpl in *. replace (n - 0)%nat with n in * by lia.
      split; intros _; [lia|].
      replace (start + (st + n * st))%nat with (start + st + n * st)%nat by lia.
      exact Hmax.
  - intros [= <-]. exists 0%nat. simpl. rewrite app_nil_r.
    split; [reflexivity|]. repeat split; lia.
Qed.

(** The loop stops: with more fuel than bytes left it has returned or
    panicked. *)
Lemma ChunkText_loop_halts fuel : forall start acc,
  (length text - start < fuel)%nat ->
  ChunkText_loop fuel text chunkSize overlap (Z.of_nat start) acc
    <> OutOfFuel.
Proof.
  pose proof stride_bounds as Hst.
  induction fuel as [|fuel IH]; intros start acc Hfuel; [lia|].
  simpl. unfold len at 1.
  destruct (Z.ltb_spec (Z.of_nat start) (Z.of_nat (length text))) as [Hlt|Hge];
    [|discriminate].
  rewrite ChunkText_window by lia.
  destruct (Z.leb_spec (Z.of_nat start + chunkSize) GoInt.max_int)
    as [Hno|Hov]; [|discriminate].
  rewrite ChunkText_next by exact Hno. apply IH. lia.
Qed.

(** Without overflow it returns. *)
Lemma ChunkText_loop_returns fuel : forall start acc,
  len text + chunkSize <= GoInt.max_int ->
  (length text - start < fuel)%nat ->
  exists chunks,
    ChunkText_loop fuel text chunkSize overlap (Z.of_nat start) acc
      = Returns chunks.
Proof.
  pose proof stride_bounds as Hst.
  induction fuel as [|fuel IH]; intros start acc Hno Hfuel; [lia|].
  simpl. unfold len at 1.
  destruct (Z.ltb_spec (Z.of_nat start) (Z.of_nat (length text))) as [Hlt|Hge];
    [|eauto].
  rewrite ChunkText_window by lia. unfold len in Hno.
  destruct (Z.leb_spec (Z.of_nat start + chunkSize) GoInt.max_int)
    as [Hno'|Hov]; [|lia].
  rewrite ChunkText_next by exact Hno'. apply IH; [exact Hno|lia].
Qed.

(** A run does not depend on the fuel once it has returned. *)
Lemma ChunkText_loop_fuel fuel : forall fuel' start acc chunks,
  ChunkText_loop fuel text chunkSize overlap start acc = Returns chunks ->
  (fuel <= fuel')%nat ->
  ChunkText_loop fuel' text chunkSize overlap start acc = Returns chunks.
Proof.
  induction fuel as [|fuel IH]; intros fuel' start acc chunks; [discriminate|].
  destruct fuel' as [|fuel']; [lia|]. simpl.
  destruct (start <? len text); [|auto].
  destruct (slice text start _); [|discriminate].
  intros Hrun Hle. apply IH; [exact Hrun|lia].
Qed.
End ChunkText_valid.

Lemma ChunkText_fuel text chunkSize overlap fuel fuel' chunks :
  ChunkText fuel text chunkSize overlap = Returns chunks ->
  (fuel <= fuel')%nat ->
  ChunkText fuel' text chunkSize overlap = Returns chunks.
Proof. unfold ChunkText. intros. eapply ChunkText_loop_fuel; eauto. Qed.

(** The shape of what [ChunkText] returns on valid arguments: chunk [i]
    is the window of the text at [i * stride], the windows reach the end
    of the text, and the last one starts inside the text. *)
Lemma ChunkText_shape text chunkSize overlap fuel chunks :
  0 < chunkSize -> 0 <= overlap < chunkSize ->
  GoInt.is_int chunkSize -> len text <= GoInt.max_int ->
  ChunkText fuel text chunkSize overlap = Returns chunks ->
  let cs := Z.to_nat chunkSize in
  let st := Z.to_nat (chunkSize - overlap) in
  (forall i c, chunks !! i = Some c <->
     (i < length chunks)%nat /\ c = take cs (drop (i * st) text)) /\
  (length text <= length chunks * st)%nat /\
  (forall i, (i < length chunks)%nat -> (i * st < length text)%nat).
Proof.
  intros Hsize Hov Hint Hlen Hrun cs st. unfold ChunkText in Hrun.
  change 0 with (Z.of_nat 0) in Hrun.
  apply ChunkText_loop_inv in Hrun as (n & -> & Hreach & Hlast & _); auto.
  simpl. rewrite windows_length. fold cs st. split; [|split].
  - intros i c. split.
    + intros H. apply windows_lookup_inv in H. exact H.
    + intros [Hi ->]. rewrite windows_lookup by exact Hi. reflexivity.
  - lia.
  - intros i Hi. specialize (Hlast ltac:(lia)).
    assert (i * st <= (n - 1) * st)%nat by (apply Nat.mul_le_mono_r; lia). lia.
Qed.

(** C1 (as amended). On valid arguments [ChunkText] returns (when
    [len(text) + chunkSize] fits an int) chunks that cover every byte
    position of the text without gaps; chunk [i] is
    [text[i*stride : min(i*stride + chunkSize, len(text))]], so it has
    length exactly [chunkSize] when its window fits in the text and is
    never longer; with [overlap = 0] every chunk but the last has length
    exactly [chunkSize]. *)
Theorem ChunkText_coverage text chunkSize overlap :
  0 < chunkSize -> 0 <= overlap < chunkSize ->
  GoInt.is_int chunkSize -> len text <= GoInt.max_int ->
  let st := Z.to_nat (chunkSize - overlap) in
  (len text + chunkSize <= GoInt.max_int ->
   exists chunks, forall fuel, (length text < fuel)%nat ->
     ChunkText fuel text chunkSize overlap = Returns chunks) /\
  (forall fuel chunks,
     ChunkText fuel text chunkSize overlap = Returns chunks ->
     covers text st chunks /\
     (forall i c, chunks !! i = Some c ->
        slice text (Z.of_nat (i * st))
          (Z.min (Z.of_nat (i * st) + chunkSize) (len text)) = Some c) /\
     (forall i c, chunks !! i = Some c ->
        Z.of_nat (i * st) + chunkSize <= len text -> len c = chunkSize) /\
     (forall i c, chunks !! i = Some c -> 1 <= len c <= chunkSize) /\
     (overlap = 0 -> all_but_last_full chunkSize chunks)).
Proof.
  intros Hsize Hov Hint Hlen st. split.
  - intros Hno.
    destruct (ChunkText_loop_returns text chunkSize overlap Hsize Hov Hint
                Hlen (S (length text)) 0%nat [] Hno ltac:(lia)) as [chunks Hrun].
    exists chunks. intros fuel Hfuel.
    apply (ChunkText_fuel _ _ _ (S (length text))); [exact Hrun|lia].
  - intros fuel chunks Hrun.
    destruct (ChunkText_shape _ _ _ _ _ Hsize Hov Hint Hlen Hrun)
      as (Hlook & Hreach & Hin).
    fold st in Hlook, Hreach, Hin.
    assert (Hst : (1 <= st <= Z.to_nat chunkSize)%nat) by (subst st; lia).
    assert (Hlenc : forall i c, chunks !! i = Some c ->
              length c = Nat.min (Z.to_nat chunkSize) (length text - i * st)).
    { intros i c H. apply Hlook in H as [_ ->].
      rewrite length_take, length_drop. reflexivity. }
    split; [|split; [|split; [|split]]].
    + intros p Hp.
      assert (Hi : (p / st < length chunks)%nat).
      { apply Nat.Div0.div_lt_upper_bound. lia. }
      exists (p / st)%nat, (take (Z.to_nat chunkSize) (drop (p / st * st) text)).
      split; [apply Hlook; auto|].
      rewrite length_take, length_drop.
      pose proof (Nat.div_mod_eq p st). pose proof (Nat.mod_upper_bound p st).
      lia.
    + intros i c H. pose proof (Hlenc _ _ H) as Hl.
      apply Hlook in H as [Hi ->]. specialize (Hin _ Hi).
      rewrite slice_ok by (unfold len; lia). f_equal. rewrite Nat2Z.id.
      unfold len.
      destruct (Z.min_spec (Z.of_nat (i * st) + chunkSize) (Z.of_nat (length text)))
        as [[_ ->]|[Hm ->]].
      * f_equal. lia.
      * rewrite !take_ge; auto; rewrite length_drop; lia.
    + intros i c H Hfit. apply Hlenc in H. unfold len in *. lia.
    + intros i c H. pose proof (Hlenc _ _ H) as Hl.
      apply Hlook in H as [Hi _]. specialize (Hin _ Hi). unfold len. lia.
    + intros -> i c H Hnext. pose proof (Hlenc _ _ H) as Hl.
      specialize (Hin _ Hnext). unfold len. subst st.
      replace (chunkSize - 0) with chunkSize in * by lia. simpl in Hin. lia.
Qed.

Lemma ChunkText_coverage_witness :
  covers (str "abcdefg") 2 [str "abc"; str "cde"; str "efg"; str "g"].
Proof.
  assert (H1 : 0 < 3) by lia.
  assert (H2 : 0 <= 1 < 3) by lia.
  assert (H3 : GoInt.is_int 3) by (vm_compute; split; discriminate).
  assert (H4 : len (str "abcdefg") <= GoInt.max_int) by (vm_compute; discriminate).
  destruct (ChunkText_coverage (str "abcdefg") 3 1 H1 H2 H3 H4) as [_ H].
  apply (H 5%nat). reflexivity.
Defined.

(** C1 as stated fails: with an overlap, several trailing chunks are
    cut short, not only the last one.  [ChunkText("abcd", 3, 2)] is
    ["abc"; "bcd"; "cd"; "d"]: the third chunk has length 2 and is not
    the last. *)
Lemma ChunkText_short_chunk_before_last :
  ChunkText 5 (str "abcd") 3 2
    = Returns [str "abc"; str "bcd"; str "cd"; str "d"] /\
  ~ all_but_last_full 3 [str "abc"; str "bcd"; str "cd"; str "d"].
Proof.
  split; [reflexivity|].
  intros H. specialize (H 2%nat (str "cd") eq_refl). simpl in H.
  specialize (H ltac:(lia)). discriminate H.
Qed.

Lemma validate_passes req embeddingDim :
  Api.validate req embeddingDim = None ->
  Api.Document req <> [] /\
  0 < Api.ChunkSize req /\
  0 <= Api.Overlap req < Api.ChunkSize req /\
  Api.ChunkSize req <= embeddingDim.
Proof.
  unfold Api.validate.
  destruct (bool_decide_reflect (Api.Document req = [])); [discriminate|].
  destruct (Z.leb_spec (Api.ChunkSize req) 0); [discriminate|].
  destruct (Z.ltb_spec (Api.Overlap req) 0); [discriminate|].
  destruct (Z.geb_spec (Api.Overlap req) (Api.ChunkSize req)); [discriminate|].
  destruct (Z.gtb_spec (Api.ChunkSize req) embeddingDim); [discriminate|].
  intros _. repeat split; auto; lia.
Qed.

(** C9. On valid arguments ([chunkSize > 0], [0 <= overlap < chunkSize])
    [ChunkText] terminates: the stride is positive, the loop index grows
    strictly, and with more fuel than the text has bytes the run has
    ended (it returns its chunks whenever [len(text) + chunkSize] fits an
    int).  The REST handler reaches [ChunkText] only with a request that
    passed its checks, which include [overlap < chunkSize]. *)
Theorem ChunkText_terminates text chunkSize overlap :
  0 < chunkSize -> 0 <= overlap < chunkSize ->
  GoInt.is_int chunkSize -> len text <= GoInt.max_int ->
  0 < GoInt.sub chunkSize overlap /\
  (forall start, 0 <= start < len text ->
     start + chunkSize <= GoInt.max_int ->
     start < GoInt.add start (GoInt.sub chunkSize overlap)) /\
  (forall fuel, (length text < fuel)%nat ->
     ChunkText fuel text chunkSize overlap <> OutOfFuel) /\
  (len text + chunkSize <= GoInt.max_int ->
   forall fuel, (length text < fuel)%nat ->
     exists chunks, ChunkText fuel text chunkSize overlap = Returns chunks) /\
  (forall req embeddingDim,
     Api.validate req embeddingDim = None ->
     0 < Api.ChunkSize req /\ 0 <= Api.Overlap req < Api.ChunkSize req) /\
  (forall req embeddingDim fuel,
     GoInt.is_int (Api.ChunkSize req) ->
     len (Api.Document req) <= GoInt.max_int ->
     (length (Api.Document req) < fuel)%nat ->
     Api.ChunkAndStoreHandler_chunks fuel req embeddingDim <> inr OutOfFuel).
Proof.
  intros Hsize Hov Hint Hlen.
  assert (Hsub : GoInt.sub chunkSize overlap
                 = Z.of_nat (Z.to_nat (chunkSize - overlap)))
    by (apply stride_sub; assumption).
  split; [rewrite Hsub; lia|].
  split.
  { intros start Hstart Hno. rewrite Hsub. unfold GoInt.add.
    rewrite wrap_id; [lia|].
    unfold GoInt.is_int, GoInt.min_int, GoInt.max_int in *. lia. }
  split.
  { intros fuel Hfuel. unfold ChunkText. change 0 with (Z.of_nat 0).
    apply ChunkText_loop_halts; auto. lia. }
  split.
  { intros Hno fuel Hfuel. unfold ChunkText. change 0 with (Z.of_nat 0).
    apply ChunkText_loop_returns; auto. lia. }
  split.
  { intros req dim Hv. apply validate_passes in Hv. tauto. }
  intros req dim fuel Hi Hl Hfuel. unfold Api.ChunkAndStoreHandler_chunks.
  destruct (Api.validate req dim) as [e|] eqn:Hv; [discriminate|].
  apply validate_passes in Hv as (_ & Hs & Ho & _).
  assert (Hhalt : ChunkText fuel (Api.Document req) (Api.ChunkSize req)
                    (Api.Overlap req) <> OutOfFuel).
  { unfold ChunkText. change 0 with (Z.of_nat 0).
    apply ChunkText_loop_halts; auto. lia. }
  destruct (ChunkText fuel _ _ _) as [chunks| |]; try congruence.
  destruct (len chunks =? 0); discriminate.
Qed.

Lemma ChunkText_terminates_witness :
  ChunkText 8 (str "abcdefg") 3 1 <> OutOfFuel /\
  exists chunks, ChunkText 8 (str "abcdefg") 3 1 = Returns chunks.
Proof.
  assert (H1 : 0 < 3) by lia.
  assert (H2 : 0 <= 1 < 3) by lia.
  assert (H3 : GoInt.is_int 3) by (vm_compute; split; discriminate).
  assert (H4 : len (str "abcdefg") <= GoInt.max_int) by (vm_compute; discriminate).
  destruct (ChunkText_terminates (str "abcdefg") 3 1 H1 H2 H3 H4)
    as (_ & _ & Hhalt & Hret & _ & _).
  split.
  - apply Hhalt. simpl. lia.
  - apply Hret; [vm_compute; discriminate | simpl; lia].
Defined.

(** ** The delimiter chunker *)

Lemma Join_cons e rest sep :
  rest <> [] -> strings.Join (e :: rest) sep = e ++ sep ++ strings.Join rest sep.
Proof. destruct rest; [congruence|reflexivity]. Qed.

Lemma Join_nil_sep elems : strings.Join elems [] = concat elems.
Proof.
  induction elems as [|e rest IH]; [reflexivity|].
  destruct rest as [|e' rest]; simpl in *; [now rewrite app_nil_r|].
  now rewrite IH.
Qed.

Lemma genSplit_loop_nonempty k s sep : strings.genSplit_loop k s sep <> [].
Proof. destruct k; simpl; [|destruct (strings.Index s sep)]; discriminate. Qed.

(** Joining what the loop of [genSplit] cut gives the string back,
    however many cuts it was allowed. *)
Lemma Join_genSplit_loop k : forall s sep,
  strings.Join (strings.genSplit_loop k s sep) sep = s.
Proof.
  induction k as [|k IH]; intros s sep; simpl; [reflexivity|].
  destruct (strings.Index s sep) as [m|] eqn:Hm; [|reflexivity].
  rewrite Join_cons by apply genSplit_loop_nonempty. rewrite IH.
  apply strings.Index_Some in Hm. rewrite <- Hm. apply take_drop.
Qed.

Lemma concat_explode_loop k : forall s, concat (strings.explode_loop k s) = s.
Proof.
  induction k as [|k IH]; intros s; simpl; [apply app_nil_r|].
  rewrite IH. apply take_drop.
Qed.

Lemma RuneCountInString_zero s : strings.RuneCountInString s = 0%nat -> s = [].
Proof.
  destruct s as [|c s]; [reflexivity|].
  rewrite strings.RuneCountInString_equation_2. discriminate.
Qed.

Lemma explode_length s : length (strings.explode s) = strings.RuneCountInString s.
Proof.
  unfold strings.explode. destruct (strings.RuneCountInString s) as [|k];
    [reflexivity|].
  generalize s. induction k as [|k IH]; intros s'; simpl; [reflexivity|].
  now rewrite IH.
Qed.

(** C8. Joining the pieces of [SplitTextWithDelimiter(text, d)] with [d]
    gives [text] back, for every text and every delimiter (the empty
    one, which splits after each UTF-8 sequence, included). *)
Theorem SplitTextWithDelimiter_roundtrip (text delimiter : gostring) :
  strings.Join (SplitTextWithDelimiter text delimiter) delimiter = text.
Proof.
  unfold SplitTextWithDelimiter, strings.Split.
  destruct delimiter as [|c d].
  - rewrite Join_nil_sep. unfold strings.explode.
    destruct (strings.RuneCountInString text) as [|k] eqn:Hk.
    + apply RuneCountInString_zero in Hk. now subst.
    + apply concat_explode_loop.
  - apply Join_genSplit_loop.
Qed.

Lemma Split_empty_text c d : strings.Split [] (c :: d) = [[]].
Proof.
  unfold strings.Split. cbn [length].
  destruct (1 <? S (strings.Count [] (c :: d)))%nat eqn:E; [reflexivity|].
  apply Nat.ltb_ge in E.
  replace (S (strings.Count [] (c :: d)) - 1)%nat with 0%nat by lia.
  reflexivity.
Qed.

Lemma Split_length text delimiter :
  text <> [] \/ delimiter <> [] ->
  (1 <= length (strings.Split text delimiter))%nat.
Proof.
  intros H. unfold strings.Split. destruct delimiter as [|c d].
  - rewrite explode_length. destruct text as [|c s]; [destruct H; congruence|].
    rewrite strings.RuneCountInString_equation_2. lia.
  - pose proof (genSplit_loop_nonempty
                  ((if (S (length text) <? S (strings.Count text (c :: d)))%nat
                    then S (length text) else S (strings.Count text (c :: d))) - 1)
                  text (c :: d)) as Hne.
    cbv zeta. destruct (strings.genSplit_loop _ _ _); [congruence|simpl; lia].
Qed.

(** C10 (as amended). [SplitTextWithDelimiter] returns at least one
    piece unless both the text and the delimiter are empty, in which case
    it returns none; the tool rejects an empty document and an empty
    delimiter before it splits, so its "No chunks generated from the
    document" answer is never given. *)
Theorem SplitTextWithDelimiter_pieces :
  (forall text delimiter,
     text <> [] \/ delimiter <> [] ->
     1 <= len (SplitTextWithDelimiter text delimiter)) /\
  SplitTextWithDelimiter [] [] = [] /\
  (forall fuel embeddingDim document delimiter,
     Mcptools.split_and_store_with_delimiter fuel embeddingDim document delimiter
     <> inl Mcptools.NoChunksGenerated).
Proof.
  split; [|split].
  - intros text delimiter H. unfold len, SplitTextWithDelimiter.
    pose proof (Split_length text delimiter H). lia.
  - reflexivity.
  - intros fuel dim document delimiter.
    unfold Mcptools.split_and_store_with_delimiter.
    destruct (bool_decide_reflect (document = [])) as [|Hdoc]; [discriminate|].
    destruct (bool_decide_reflect (delimiter = [])) as [|Hdel]; [discriminate|].
    pose proof (Split_length document delimiter (or_introl Hdoc)) as Hl.
    unfold SplitTextWithDelimiter, len.
    destruct (Z.eqb_spec (Z.of_nat (length (strings.Split document delimiter))) 0);
      [lia|discriminate].
Qed.

(** C10 as stated fails for the empty text with the empty delimiter:
    [strings.Split("", "")] has no element. *)
Lemma SplitTextWithDelimiter_no_piece :
  SplitTextWithDelimiter (str "") (str "") = [] /\
  ~ (1 <= len (SplitTextWithDelimiter (str "") (str ""))).
Proof. split; [reflexivity|]. vm_compute. congruence. Qed.

(** C2 (as amended). On the empty string [ChunkText],
    [SplitMarkdownBySections] and [ChunkWithMarkdownHierarchy] return the
    empty sequence; [SplitTextWithDelimiter] returns the one-element
    sequence [[""]] for every delimiter that is not empty, and the empty
    sequence only for the empty delimiter. *)
Theorem splitters_on_empty_input :
  (forall fuel chunkSize overlap,
     ChunkText (S fuel) [] chunkSize overlap = Returns []) /\
  SplitMarkdownBySections [] = [] /\
  ChunkWithMarkdownHierarchy [] = [] /\
  (forall c d, SplitTextWithDelimiter [] (c :: d) = [[]]) /\
  SplitTextWithDelimiter [] [] = [].
Proof.
  split; [|split; [|split; [|split]]].
  - reflexivity.
  - reflexivity.
  - reflexivity.
  - intros c d. apply Split_empty_text.
  - reflexivity.
Qed.

(** C2 as stated fails for the delimiter chunker:
    [SplitTextWithDelimiter("", ",")] is [[""]], not the empty sequence. *)
Lemma SplitTextWithDelimiter_empty_text :
  SplitTextWithDelimiter (str "") (str ",") = [str ""] /\
  SplitTextWithDelimiter (str "") (str ",") <> [].
Proof. split; [reflexivity|]. vm_compute. discriminate. Qed.

Lemma SplitTextWithDelimiter_pieces_witness :
  1 <= len (SplitTextWithDelimiter (str "") (str "-----")) /\
  1 <= len (SplitTextWithDelimiter (str "a-----b") (str "")).
Proof.
  destruct SplitTextWithDelimiter_pieces as (H & _ & _).
  split; apply H; [right|left]; discriminate.
Defined.

(** ** The markdown section splitter *)

Lemma SplitMarkdownBySections_no_header markdown :
  regexp.FindAllStringIndex markdown = [] ->
  SplitMarkdownBySections markdown
  = if bool_decide (markdown = []) then [] else [strings.TrimSpace markdown].
Proof.
  intros H. unfold SplitMarkdownBySections. rewrite H. reflexivity.
Qed.

(** C3 at its failing input. A text without heading line comes back as
    the one section [TrimSpace(markdown)] unless it is the empty string;
    so the text of three spaces, which has no heading line and is blank,
    gives the one-element sequence [[""]] and not the empty sequence. *)
Theorem SplitMarkdownBySections_whitespace_only :
  (forall markdown, regexp.FindAllStringIndex markdown = [] ->
     SplitMarkdownBySections markdown
     = if bool_decide (markdown = []) then []
       else [strings.TrimSpace markdown]) /\
  regexp.FindAllStringIndex (str "   ") = [] /\
  strings.TrimSpace (str "   ") = str "" /\
  SplitMarkdownBySections (str "   ") = [str ""] /\
  SplitMarkdownBySections (str "") = [].
Proof.
  split; [exact SplitMarkdownBySections_no_header|].
  repeat split; reflexivity.
Qed.

(** ** Oversize subdivision *)

Lemma ChunkText_chunk_length text chunkSize overlap fuel chunks :
  0 < chunkSize -> 0 <= overlap < chunkSize ->
  GoInt.is_int chunkSize -> len text <= GoInt.max_int ->
  ChunkText fuel text chunkSize overlap = Returns chunks ->
  forall c, c ∈ chunks -> len c <= chunkSize.
Proof.
  intros Hsize Hov Hint Hlen Hrun c Hc.
  destruct (ChunkText_shape _ _ _ _ _ Hsize Hov Hint Hlen Hrun) as (Hlook & _).
  apply list_elem_of_lookup in Hc as [i Hi]. apply Hlook in Hi as [_ ->].
  unfold len. rewrite length_take. lia.
Qed.

Lemma prepend_header_lookup header subs i sub :
  subs !! i = Some sub ->
  Mcptools.prepend_header header subs !! i
  = Some (if (i =? 0)%nat then sub else header ++ [NL; NL] ++ sub).
Proof.
  destruct subs as [|first rest]; [discriminate|].
  destruct i as [|j]; simpl; [auto|].
  intros H. rewrite list_lookup_fmap, H. reflexivity.
Qed.

(** What the section tool and the delimiter tool store for a piece that
    is cut into [subs]. *)
Lemma chunksToStore_with_header_spec fuel embeddingDim piece header subs :
  len piece > embeddingDim ->
  ChunkText fuel piece embeddingDim 0 = Returns subs ->
  exists stored,
    Mcptools.chunksToStore_with_header fuel embeddingDim piece header
      = Returns stored /\
    length stored = length subs /\
    forall i sub, subs !! i = Some sub ->
      stored !! i
      = Some (if (i =? 0)%nat || bool_decide (header = []) then sub
              else header ++ [NL; NL] ++ sub).
Proof.
  intros Hbig Hrun. unfold Mcptools.chunksToStore_with_header.
  destruct (Z.gtb_spec (len piece) embeddingDim) as [_|]; [|lia].
  rewrite Hrun.
  destruct (bool_decide_reflect (header <> [])) as [Hh|Hh]; simpl.
  - destruct (Z.gtb_spec (len subs) 1) as [Hmany|Hone].
    + eexists. split; [reflexivity|]. split.
      { destruct subs; simpl; [reflexivity|]. now rewrite length_map. }
      intros i sub Hi. rewrite (prepend_header_lookup _ _ _ _ Hi).
      rewrite bool_decide_false by exact Hh. now rewrite orb_false_r.
    + eexists. split; [reflexivity|]. split; [reflexivity|].
      intros i sub Hi. pose proof (lookup_lt_Some _ _ _ Hi) as Hlt.
      unfold len in Hone. destruct i; [exact Hi|lia].
  - eexists. split; [reflexivity|]. split; [reflexivity|].
    intros i sub Hi. rewrite bool_decide_true by (apply dec_stable, Hh).
    now rewrite orb_true_r.
Qed.

(** C5. For every piece and every [sizeLimit > 0], the sub-pieces that
    the subdivider [ChunkText(piece, sizeLimit, 0)] produces have length
    at most [sizeLimit]; once the header is prepended, a sub-piece other
    than the first is longer by the header and two newlines, and so may
    exceed [sizeLimit]. *)
Theorem subdivider_within_limit piece sizeLimit :
  0 < sizeLimit -> GoInt.is_int sizeLimit -> len piece <= GoInt.max_int ->
  (len piece + sizeLimit <= GoInt.max_int ->
   exists subs, forall fuel, (length piece < fuel)%nat ->
     ChunkText fuel piece sizeLimit 0 = Returns subs) /\
  (forall fuel subs,
     ChunkText fuel piece sizeLimit 0 = Returns subs ->
     forall sub, sub ∈ subs -> len sub <= sizeLimit) /\
  (forall fuel subs header,
     len piece > sizeLimit -> header <> [] ->
     ChunkText fuel piece sizeLimit 0 = Returns subs ->
     exists stored,
       Mcptools.chunksToStore_with_header fuel sizeLimit piece header
         = Returns stored /\
       stored !! 0%nat = subs !! 0%nat /\
       forall i c, (0 < i)%nat -> stored !! i = Some c ->
         exists sub, subs !! i = Some sub /\
                     len c = len header + 2 + len sub) /\
  (exists stored c,
     Mcptools.section_chunksToStore 8 4 (str "# a" ++ [NL] ++ str "bcdefg")
       = Returns stored /\
     stored !! 1%nat = Some c /\ len c > 4).
Proof.
  intros Hsize Hint Hlen.
  assert (Hov : 0 <= 0 < sizeLimit) by lia.
  split; [|split; [|split]].
  - intros Hno.
    destruct (ChunkText_loop_returns piece sizeLimit 0 Hsize Hov Hint
                Hlen (S (length piece)) 0%nat [] Hno ltac:(lia)) as [subs Hrun].
    exists subs. intros fuel Hfuel.
    apply (ChunkText_fuel _ _ _ (S (length piece))); [exact Hrun|lia].
  - intros fuel subs Hrun.
    apply (ChunkText_chunk_length piece sizeLimit 0 fuel); auto.
  - intros fuel subs header Hbig Hh Hrun.
    destruct (chunksToStore_with_header_spec fuel sizeLimit piece header subs
                Hbig Hrun) as (stored & Hst & Hl & Hlook).
    exists stored. split; [exact Hst|]. split.
    + destruct (subs !! 0%nat) as [sub|] eqn:H0.
      * now rewrite (Hlook _ _ H0).
      * apply lookup_ge_None in H0. apply lookup_ge_None. lia.
    + intros i c Hi Hc.
      destruct (subs !! i) as [sub|] eqn:Hsub.
      * exists sub. split; [reflexivity|].
        rewrite (Hlook _ _ Hsub) in Hc.
        destruct i; [lia|]. simpl in Hc.
        rewrite bool_decide_false in Hc by exact Hh. injection Hc as <-.
        unfold len. rewrite !length_app. simpl. lia.
      * apply lookup_ge_None in Hsub. apply lookup_lt_Some in Hc. lia.
  - eexists _, _. split; [reflexivity|]. split; [reflexivity|].
    vm_compute. reflexivity.
Qed.

Lemma subdivider_within_limit_witness :
  ChunkText 8 (str "abcdefg") 3 0 = Returns [str "abc"; str "def"; str "g"] /\
  len (str "def") <= 3.
Proof.
  split; [reflexivity|].
  assert (H1 : 0 < 3) by lia.
  assert (H2 : GoInt.is_int 3) by (vm_compute; split; discriminate).
  assert (H3 : len (str "abcdefg") <= GoInt.max_int) by (vm_compute; discriminate).
  destruct (subdivider_within_limit (str "abcdefg") 3 H1 H2 H3) as (_ & H & _).
  apply (H 8%nat [str "abc"; str "def"; str "g"]); [reflexivity|].
  apply list_elem_of_lookup. exists 1%nat. reflexivity.
Defined.

(** C6 (as amended). When a piece of the delimiter strategy or of the
    section strategy exceeds the limit and is cut into sub-pieces, the
    first sub-piece is stored as it is, and every other one is stored
    with the extracted header and two newlines before it when that
    header is not empty, and as it is when the header is empty; the
    hierarchy strategy stores every sub-piece as it is. *)
Theorem subdivision_prepends_header piece embeddingDim fuel subs :
  len piece > embeddingDim ->
  ChunkText fuel piece embeddingDim 0 = Returns subs ->
  (exists stored,
     Mcptools.section_chunksToStore fuel embeddingDim piece = Returns stored /\
     length stored = length subs /\
     forall i sub, subs !! i = Some sub ->
       stored !! i
       = Some (if (i =? 0)%nat || bool_decide (ExtractSectionHeader piece = [])
               then sub
               else ExtractSectionHeader piece ++ [NL; NL] ++ sub)) /\
  (exists stored,
     Mcptools.delimiter_chunksToStore fuel embeddingDim piece = Returns stored /\
     length stored = length subs /\
     forall i sub, subs !! i = Some sub ->
       stored !! i
       = Some (if (i =? 0)%nat
                  || bool_decide (ExtractFirstNonEmptyLines piece 2 = [])
               then sub
               else ExtractFirstNonEmptyLines piece 2 ++ [NL; NL] ++ sub)) /\
  Mcptools.hierarchy_chunksToStore fuel embeddingDim piece = Returns subs.
Proof.
  intros Hbig Hrun. split; [|split].
  - apply chunksToStore_with_header_spec; assumption.
  - apply chunksToStore_with_header_spec; assumption.
  - unfold Mcptools.hierarchy_chunksToStore.
    destruct (Z.gtb_spec (len piece) embeddingDim) as [_|]; [exact Hrun|lia].
Qed.

Lemma subdivision_prepends_header_witness :
  exists stored,
    Mcptools.section_chunksToStore 8 4 (str "# a" ++ [NL] ++ str "bcdefg")
      = Returns stored /\
    stored !! 1%nat = Some (str "# a" ++ [NL; NL] ++ str "bcde").
Proof.
  assert (H1 : len (str "# a" ++ [NL] ++ str "bcdefg") > 4) by reflexivity.
  assert (H2 : ChunkText 8 (str "# a" ++ [NL] ++ str "bcdefg") 4 0
               = Returns [str "# a" ++ [NL]; str "bcde"; str "fg"])
    by reflexivity.
  destruct (subdivision_prepends_header _ _ _ _ H1 H2)
    as ((stored & Hst & _ & Hlook) & _ & _).
  exists stored. split; [exact Hst|].
  apply (Hlook 1%nat (str "bcde")). reflexivity.
Defined.

(** C6 as stated fails for a piece without header: the section "aaaa"
    (the one section of the document "aaaa") has no heading line, its
    extracted header is empty, and with the limit 2 its second sub-piece
    is stored as "aa", without the two newlines that joining the header
    to it would put in front. *)
Lemma subdivision_without_header :
  SplitMarkdownBySections (str "aaaa") = [str "aaaa"] /\
  ExtractSectionHeader (str "aaaa") = str "" /\
  ChunkText 8 (str "aaaa") 2 0 = Returns [str "aa"; str "aa"] /\
  Mcptools.section_chunksToStore 8 2 (str "aaaa")
    = Returns [str "aa"; str "aa"] /\
  [str "aa"; str "aa"] !! 1%nat
    <> Some (ExtractSectionHeader (str "aaaa") ++ [NL; NL] ++ str "aa").
Proof. repeat split; try reflexivity. vm_compute. discriminate. Qed.

(** ** The markdown hierarchy parser *)

(** The pop takes entries off the top only, and only entries whose level
    is at least the new level. *)
Lemma pop_stack_removed level stack :
  exists removed,
    stack = pop_stack level stack ++ removed /\
    Forall (fun e => level <= Level e) removed.
Proof.
  induction stack as [|e above (removed & Heq & Hall)]; [exists []; auto|].
  simpl. destruct (pop_stack level above) as [|k kept] eqn:Hpop.
  - destruct (Z.geb_spec (Level e) level).
    + exists (e :: above). split; [reflexivity|].
      constructor; [lia|]. simpl in Heq. now subst.
    + exists removed. simpl in Heq. subst. auto.
  - exists removed. split; [|exact Hall]. simpl. f_equal. exact Heq.
Qed.

(** An entry below the new level on top of the stack stops the pop at
    once. *)
Lemma pop_stack_keep level stack top :
  Level top < level -> pop_stack level (stack ++ [top]) = stack ++ [top].
Proof.
  intros Hlt. induction stack as [|e stack IH]; simpl.
  - destruct (Z.geb_spec (Level top) level); [lia|reflexivity].
  - rewrite IH. destruct (stack ++ [top]) eqn:E; [|reflexivity].
    destruct stack; discriminate.
Qed.

Lemma parse_headings_head stack prefix header content rest :
  exists chunk,
    parse_headings stack ((prefix, header, content) :: rest)
    = chunk :: parse_headings (pop_stack (len prefix) stack ++ [chunk]) rest /\
    Level chunk = len prefix /\ Header chunk = header /\
    Prefix chunk = prefix /\ Content chunk = content /\
    Hierarchy chunk = buildHierarchy (pop_stack (len prefix) stack) header /\
    match last (pop_stack (len prefix) stack) with
    | Some parent =>
        ParentHeader chunk = Header parent /\
        ParentLevel chunk = Level parent /\
        ParentPrefix chunk = Prefix parent
    | None =>
        ParentHeader chunk = [] /\ ParentLevel chunk = 0 /\
        ParentPrefix chunk = []
    end.
Proof.
  simpl. destruct (last (pop_stack (len prefix) stack)) as [parent|];
    eexists; (split; [reflexivity|]); simpl; auto 10.
Qed.

(** Two nodes in a row, the second deeper than the first: the first is
    the parent of the second. *)
Lemma parse_headings_deeper hs : forall stack i a b,
  parse_headings stack hs !! i = Some a ->
  parse_headings stack hs !! S i = Some b ->
  Level a < Level b ->
  ParentHeader b = Header a /\ ParentLevel b = Level a /\
  ParentPrefix b = Prefix a.
Proof.
  induction hs as [|[[prefix header] content] rest IH]; intros stack i a b;
    [discriminate|].
  destruct (parse_headings_head stack prefix header content rest)
    as (chunk & -> & Hchunk).
  destruct i as [|i]; [|apply IH].
  simpl. intros [= <-].
  destruct rest as [|[[prefix' header'] content'] rest']; [discriminate|].
  destruct (parse_headings_head (pop_stack (len prefix) stack ++ [chunk])
              prefix' header' content' rest')
    as (chunk' & -> & Hlevel & _ & _ & _ & _ & Hparent).
  simpl. intros [= <-] Hlt. rewrite Hlevel in Hlt.
  rewrite pop_stack_keep in Hparent by exact Hlt.
  rewrite last_snoc in Hparent. exact Hparent.
Qed.

(** C7. When a heading is followed by a deeper heading (by one level or
    skipping levels), the node of the first is the parent of the node of
    the second: the pop removes only entries whose level is at least the
    level of the new node. *)
Theorem level_skip_parent markdown i a b :
  ParseMarkdownHierarchy markdown !! i = Some a ->
  ParseMarkdownHierarchy markdown !! S i = Some b ->
  Level a < Level b ->
  (ParentHeader b = Header a /\ ParentLevel b = Level a /\
   ParentPrefix b = Prefix a) /\
  (forall level stack, exists removed,
     stack = pop_stack level stack ++ removed /\
     Forall (fun e => level <= Level e) removed).
Proof.
  intros Ha Hb Hlt. split; [|apply pop_stack_removed].
  exact (parse_headings_deeper _ _ _ _ _ Ha Hb Hlt).
Qed.

Lemma level_skip_parent_witness :
  exists top deep,
    ParseMarkdownHierarchy
      (str "# Top" ++ [NL] ++ str "### Deep") = [top; deep] /\
    Level top = 1 /\ Level deep = 3 /\
    ParentHeader deep = str "Top" /\ ParentLevel deep = 1 /\
    ParentPrefix deep = str "#".
Proof.
  eexists _, _. split; [reflexivity|]. split; [reflexivity|].
  split; [reflexivity|].
  match goal with
  | |- ParentHeader ?d = _ /\ _ =>
      destruct (level_skip_parent (str "# Top" ++ [NL] ++ str "### Deep")
                  0%nat _ d eq_refl eq_refl) as [H _]
  end.
  - reflexivity.
  - exact H.
Defined.

(** ** Lines *)

Lemma Count_loop_unfold s c d n :
  strings.Count_loop s (c :: d) n
  = match strings.Index s (c :: d) with
    | None => n
    | Some i => strings.Count_loop (drop (i + S (length d)) s) (c :: d) (S n)
    end.
Proof.
  rewrite strings.Count_loop_equation_2.
  unfold Equations.Prop.Logic.inspect.
  assert (H : forall o (e : strings.Index s (c :: d) = o),
             strings.Count_loop_unfold_clause_2 s c d (exist _ o e) n
             = match o with
               | Some i =>
                   strings.Count_loop (drop (i + S (length d)) s) (c :: d) (S n)
               | None => n
               end).
  { intros [i|] e; reflexivity. }
  apply H.
Qed.

(** Induction on the length of a string. *)
Lemma length_ind (P : gostring -> Prop) :
  (forall s, (forall s', (length s' < length s)%nat -> P s') -> P s) ->
  forall s, P s.
Proof.
  intros Hstep s. remember (length s) as m eqn:Hm. revert s Hm.
  induction m as [m IH] using lt_wf_ind. intros s ->.
  apply Hstep. intros s' Hlt. exact (IH _ Hlt s' eq_refl).
Qed.

Lemma Count_loop_S c d s : forall n,
  strings.Count_loop s (c :: d) (S n) = S (strings.Count_loop s (c :: d) n).
Proof.
  induction s as [s IH] using length_ind. intros n.
  rewrite !(Count_loop_unfold s).
  destruct (strings.Index s (c :: d)) as [i|] eqn:Hi; [|reflexivity].
  apply IH. apply strings.Index_bound in Hi. rewrite length_drop.
  cbn [length] in Hi. lia.
Qed.

Lemma Count_loop_le c d s :
  (strings.Count_loop s (c :: d) 0 <= length s)%nat.
Proof.
  induction s as [s IH] using length_ind.
  rewrite Count_loop_unfold.
  destruct (strings.Index s (c :: d)) as [i|] eqn:Hi; [|lia].
  rewrite Count_loop_S. apply strings.Index_bound in Hi. cbn [length] in Hi.
  assert (Hlt : (length (drop (i + S (length d)) s) < length s)%nat)
    by (rewrite length_drop; lia).
  specialize (IH _ Hlt). rewrite length_drop in IH. lia.
Qed.

(** Turns of the loop of [genSplit] beyond the number of separators cut
    nothing more. *)
Lemma genSplit_loop_enough c d k : forall s,
  (strings.Count_loop s (c :: d) 0 <= k)%nat ->
  strings.genSplit_loop k s (c :: d)
  = strings.genSplit_loop (strings.Count_loop s (c :: d) 0) s (c :: d).
Proof.
  induction k as [|k IH]; intros s Hk.
  - replace (strings.Count_loop s (c :: d) 0) with 0%nat by lia. reflexivity.
  - revert Hk. rewrite Count_loop_unfold. cbn [strings.genSplit_loop].
    destruct (strings.Index s (c :: d)) as [i|] eqn:Hi; [|reflexivity].
    rewrite Count_loop_S. intros Hk. cbn [strings.genSplit_loop].
    rewrite Hi. f_equal. apply IH. cbn [length]. lia.
Qed.

Lemma Split_Count c d s :
  strings.Split s (c :: d)
  = strings.genSplit_loop (strings.Count_loop s (c :: d) 0) s (c :: d).
Proof.
  unfold strings.Split, strings.Count. cbv zeta.
  pose proof (Count_loop_le c d s) as Hle.
  destruct (Nat.ltb_spec (S (length s)) (S (strings.Count_loop s (c :: d) 0)));
    [lia|].
  f_equal. lia.
Qed.

Lemma is_newline_eqb c : regexp.is_newline c = Ascii.eqb NL c.
Proof.
  destruct (Ascii.eqb_spec NL c) as [<-|Hne]; [reflexivity|].
  unfold regexp.is_newline, byte. destruct (Z.eqb_spec (Z.of_N (N_of_ascii c)) 10)
    as [E|]; [|reflexivity].
  exfalso. apply Hne. rewrite <- (ascii_N_embedding c).
  replace (N_of_ascii c) with 10%N by (symmetry; apply N2Z.inj; exact E).
  reflexivity.
Qed.

Lemma Index_newline a b :
  no_newline a = true -> strings.Index (a ++ NL :: b) [NL] = Some (length a).
Proof.
  induction a as [|x a IH]; intros Ha; [reflexivity|].
  simpl in Ha. apply andb_true_iff in Ha as [Hx Ha].
  change ((x :: a) ++ NL :: b) with (x :: (a ++ NL :: b)).
  cbn [strings.Index strings.HasPrefix].
  rewrite <- is_newline_eqb. apply negb_true_iff in Hx. rewrite Hx.
  rewrite IH by exact Ha. reflexivity.
Qed.

Lemma Index_no_newline a :
  no_newline a = true -> strings.Index a [NL] = None.
Proof.
  induction a as [|x a IH]; intros Ha; [reflexivity|].
  simpl in Ha. apply andb_true_iff in Ha as [Hx Ha].
  cbn [strings.Index strings.HasPrefix].
  rewrite <- is_newline_eqb. apply negb_true_iff in Hx. rewrite Hx.
  rewrite IH by exact Ha. reflexivity.
Qed.

(** The first line of a text is what stands before its first newline. *)
Lemma lines_cons a b :
  no_newline a = true -> lines (a ++ NL :: b) = a :: lines b.
Proof.
  intros Ha. unfold lines. rewrite !Split_Count.
  rewrite (Count_loop_unfold (a ++ NL :: b)), (Index_newline a b Ha).
  rewrite Count_loop_S. cbn [strings.genSplit_loop].
  rewrite (Index_newline a b Ha). cbn [length].
  rewrite take_app_length.
  replace (length a + 1)%nat with (length (a ++ [NL]))
    by (rewrite length_app; reflexivity).
  replace (a ++ NL :: b) with ((a ++ [NL]) ++ b) by (now rewrite <- app_assoc).
  rewrite drop_app_length. reflexivity.
Qed.

Lemma lines_single a : no_newline a = true -> lines a = [a].
Proof.
  intros Ha. unfold lines. rewrite Split_Count, Count_loop_unfold.
  rewrite (Index_no_newline a Ha). reflexivity.
Qed.

(** ** The hierarchy renderer *)

Lemma run_take (p : ascii -> bool) s : forallb p (take (regexp.run p s) s) = true.
Proof.
  induction s as [|c s IH]; [reflexivity|]. simpl.
  destruct (p c) eqn:Hc; [|reflexivity]. simpl. now rewrite Hc.
Qed.

Lemma forallb_weaken (p q : ascii -> bool) s :
  (forall c, p c = true -> q c = true) ->
  forallb p s = true -> forallb q s = true.
Proof.
  intros Hpq. induction s as [|c s IH]; [reflexivity|]. simpl.
  intros H. apply andb_true_iff in H as [Hc Hs].
  now rewrite (Hpq _ Hc), IH.
Qed.

Lemma no_newline_app a b :
  no_newline (a ++ b) = no_newline a && no_newline b.
Proof. apply forallb_app. Qed.

Lemma match_header_Some s m :
  regexp.match_header s = Some m ->
  regexp.hashes m = regexp.run regexp.is_hash (drop (regexp.lead m) s) /\
  regexp.title m
  = regexp.run (fun c => negb (regexp.is_newline c))
      (drop (regexp.lead m + regexp.hashes m + regexp.gap m) s).
Proof.
  unfold regexp.match_header. cbv zeta.
  destruct (_ || _); [discriminate|]. intros [= <-]. simpl.
  split; [reflexivity|]. rewrite !drop_drop. do 2 f_equal. lia.
Qed.

Lemma find_all_match text starts : forall pos p m,
  (p, m) ∈ regexp.find_all text starts pos ->
  regexp.match_header (drop p text) = Some m.
Proof.
  induction starts as [|q starts IH]; intros pos p m; simpl.
  - intros H. inversion H.
  - destruct (_ && _); [|apply IH].
    destruct (regexp.match_header (drop q text)) as [m'|] eqn:Hm; [|apply IH].
    intros H. apply elem_of_cons in H as [[= -> ->]|H]; [exact Hm|].
    eapply IH, H.
Qed.

(** The marker and the text of a heading hold no newline. *)
Lemma headings_no_newline markdown ms :
  (forall p m, (p, m) ∈ ms ->
     regexp.match_header (drop p markdown) = Some m) ->
  Forall (fun h => no_newline (fst (fst h)) = true /\
                   no_newline (snd (fst h)) = true)
         (headings markdown ms).
Proof.
  induction ms as [|[p m] rest IH]; intros Hms; [constructor|].
  cbn [headings]. constructor.
  - destruct (match_header_Some _ _ (Hms p m (list_elem_of_here _ _))) as [Hh Ht].
    cbn [fst snd]. unfold substring. split.
    + replace (p + regexp.lead m + regexp.hashes m - (p + regexp.lead m))%nat
        with (regexp.hashes m) by lia.
      rewrite Hh, drop_drop.
      replace (p + regexp.lead m)%nat with (p + regexp.lead m)%nat by lia.
      eapply forallb_weaken; [|apply run_take].
      intros c Hc. unfold regexp.is_hash, regexp.is_newline in *.
      destruct (Z.eqb_spec (byte c) 35); [|discriminate].
      destruct (Z.eqb_spec (byte c) 10); [lia|reflexivity].
    + unfold regexp.match_length.
      replace (p + (regexp.lead m + regexp.hashes m + regexp.gap m
                    + regexp.title m)
               - (p + regexp.lead m + regexp.hashes m + regexp.gap m))%nat
        with (regexp.title m) by lia.
      rewrite Ht, drop_drop.
      replace (p + regexp.lead m + regexp.hashes m + regexp.gap m)%nat
        with (p + (regexp.lead m + regexp.hashes m + regexp.gap m))%nat by lia.
      apply run_take.
  - apply IH. intros q m' H. apply Hms. now apply list_elem_of_further.
Qed.

Lemma Join_no_newline elems sep :
  no_newline sep = true ->
  Forall (fun e => no_newline e = true) elems ->
  no_newline (strings.Join elems sep) = true.
Proof.
  intros Hsep. induction 1 as [|e rest He Hrest IH]; [reflexivity|].
  destruct rest as [|e' rest]; [exact He|].
  rewrite Join_cons by discriminate.
  now rewrite !no_newline_app, He, Hsep, IH.
Qed.

Lemma pop_stack_Forall (P : MarkdownChunk -> Prop) level stack :
  Forall P stack -> Forall P (pop_stack level stack).
Proof.
  destruct (pop_stack_removed level stack) as (removed & Heq & _).
  intros H. rewrite Heq in H. now apply Forall_app in H as [H _].
Qed.

Lemma parse_headings_one_line hs : forall stack,
  Forall (fun e => no_newline (Header e) = true) stack ->
  Forall (fun h => no_newline (fst (fst h)) = true /\
                   no_newline (snd (fst h)) = true) hs ->
  Forall one_line_fields (parse_headings stack hs).
Proof.
  induction hs as [|[[prefix header] content] rest IH]; intros stack Hst Hhs;
    [constructor|].
  apply Forall_cons in Hhs as [[Hp Hh] Hrest]. cbn [fst snd] in Hp, Hh.
  destruct (parse_headings_head stack prefix header content rest)
    as (chunk & -> & _ & Hheader & Hprefix & _ & Hhier & _).
  pose proof (pop_stack_Forall _ (len prefix) _ Hst) as Hpop.
  constructor.
  - unfold one_line_fields. rewrite Hprefix, Hheader, Hhier.
    repeat split; auto. unfold buildHierarchy.
    apply Join_no_newline; [reflexivity|].
    apply Forall_app. split; [|repeat constructor; exact Hh].
    apply Forall_fmap. exact Hpop.
  - apply IH; [|exact Hrest]. apply Forall_app. split; [exact Hpop|].
    repeat constructor. now rewrite Hheader.
Qed.

Lemma ParseMarkdownHierarchy_one_line markdown :
  Forall one_line_fields (ParseMarkdownHierarchy markdown).
Proof.
  apply parse_headings_one_line; [constructor|].
  apply headings_no_newline. intros p m. apply find_all_match.
Qed.

(** C4 (as amended). Every chunk of [ChunkWithMarkdownHierarchy] is made
    of three labelled parts joined by newlines: the line
    ["TITLE: " + marker + " " + headingText], the line
    ["HIERARCHY: " + hierarchyPath], and ["CONTENT: " + content].  The
    first two are lines of the chunk; the third spans as many lines as
    the content has, so the chunk has at least three lines, and exactly
    three when the content holds no newline. *)
Theorem hierarchy_chunk_format markdown chunk :
  chunk ∈ ChunkWithMarkdownHierarchy markdown ->
  exists node,
    node ∈ ParseMarkdownHierarchy markdown /\
    let title := str "TITLE: " ++ Prefix node ++ str " " ++ Header node in
    let hierarchy := str "HIERARCHY: " ++ Hierarchy node in
    let content := str "CONTENT: " ++ Content node in
    chunk = title ++ [NL] ++ hierarchy ++ [NL] ++ content /\
    lines chunk = title :: hierarchy :: lines content /\
    (3 <= length (lines chunk))%nat /\
    (no_newline (Content node) = true ->
     lines chunk = [title; hierarchy; content]).
Proof.
  intros Hin. unfold ChunkWithMarkdownHierarchy in Hin.
  apply list_elem_of_fmap in Hin as (node & -> & Hnode).
  exists node. split; [exact Hnode|]. cbv zeta.
  pose proof (ParseMarkdownHierarchy_one_line markdown) as Hall.
  rewrite Forall_forall in Hall.
  destruct (Hall _ Hnode) as (Hp & Hh & Hy).
  assert (Htitle : no_newline (str "TITLE: " ++ Prefix node ++ str " "
                               ++ Header node) = true).
  { now rewrite !no_newline_app, Hp, Hh. }
  assert (Hhier : no_newline (str "HIERARCHY: " ++ Hierarchy node) = true).
  { now rewrite no_newline_app, Hy. }
  assert (Hrender : render node
            = (str "TITLE: " ++ Prefix node ++ str " " ++ Header node)
                ++ [NL] ++ (str "HIERARCHY: " ++ Hierarchy node)
                ++ [NL] ++ str "CONTENT: " ++ Content node).
  { unfold render. now rewrite <- !app_assoc. }
  assert (Hlines : lines (render node)
            = (str "TITLE: " ++ Prefix node ++ str " " ++ Header node)
                :: (str "HIERARCHY: " ++ Hierarchy node)
                :: lines (str "CONTENT: " ++ Content node)).
  { rewrite Hrender.
    change ([NL] ++ ?x) with (NL :: x).
    rewrite (lines_cons _ _ Htitle).
    change ([NL] ++ ?x) with (NL :: x).
    now rewrite (lines_cons _ _ Hhier). }
  split; [exact Hrender|]. split; [exact Hlines|]. split.
  - rewrite Hlines. cbn [length].
    pose proof (Split_length (str "CONTENT: " ++ Content node) [NL]
                  ltac:(right; discriminate)) as Hl.
    unfold lines. lia.
  - intros Hc. rewrite Hlines. rewrite (lines_single (str "CONTENT: " ++ _)).
    + reflexivity.
    + now rewrite no_newline_app, Hc.
Qed.

Lemma hierarchy_chunk_format_witness :
  exists node,
    node ∈ ParseMarkdownHierarchy (str "# Main" ++ [NL] ++ str "Main content.") /\
    lines (str "TITLE: # Main" ++ [NL] ++ str "HIERARCHY: Main" ++ [NL]
             ++ str "CONTENT: Main content.")
    = (str "TITLE: " ++ Prefix node ++ str " " ++ Header node)
        :: (str "HIERARCHY: " ++ Hierarchy node)
        :: lines (str "CONTENT: " ++ Content node).
Proof.
  assert (Hin : str "TITLE: # Main" ++ [NL] ++ str "HIERARCHY: Main" ++ [NL]
                  ++ str "CONTENT: Main content."
                ∈ ChunkWithMarkdownHierarchy
                    (str "# Main" ++ [NL] ++ str "Main content.")).
  { apply list_elem_of_lookup. exists 0%nat. reflexivity. }
  destruct (hierarchy_chunk_format _ _ Hin) as (node & Hnode & _ & Hlines & _).
  exists node. split; [exact Hnode|exact Hlines].
Defined.

(** C4 as stated fails when the content of a section has more than one
    line: the chunk of "# A" followed by the lines "x" and "y" has four
    lines. *)
Lemma hierarchy_chunk_four_lines :
  ChunkWithMarkdownHierarchy (str "# A" ++ [NL] ++ str "x" ++ [NL] ++ str "y")
  = [str "TITLE: # A" ++ [NL] ++ str "HIERARCHY: A" ++ [NL]
       ++ str "CONTENT: x" ++ [NL] ++ str "y"] /\
  lines (str "TITLE: # A" ++ [NL] ++ str "HIERARCHY: A" ++ [NL]
           ++ str "CONTENT: x" ++ [NL] ++ str "y")
  = [str "TITLE: # A"; str "HIERARCHY: A"; str "CONTENT: x"; str "y"] /\
  length (lines (str "TITLE: # A" ++ [NL] ++ str "HIERARCHY: A" ++ [NL]
                   ++ str "CONTENT: x" ++ [NL] ++ str "y")) <> 3%nat.
Proof. repeat split; try reflexivity. vm_compute. discriminate. Qed.

(** ** The matches of the header pattern are in range

    What lets the splitter slice the document at them without a panic:
    a match lies inside the text, and the next match starts at or after
    its end. *)

Lemma run_le (p : ascii -> bool) s : (regexp.run p s <= length s)%nat.
Proof.
  induction s as [|c s IH]; simpl; [lia|]. destruct (p c); simpl; lia.
Qed.

Lemma match_header_length s m :
  regexp.match_header s = Some m ->
  (2 <= regexp.match_length m <= length s)%nat.
Proof.
  unfold regexp.match_header, regexp.match_length. cbv zeta.
  destruct (Nat.eqb_spec (regexp.run regexp.is_hash
                            (drop (regexp.run regexp.is_space s) s)) 0);
    [discriminate|].
  destruct (Nat.eqb_spec
              (regexp.run regexp.is_space
                 (drop (regexp.run regexp.is_hash
                          (drop (regexp.run regexp.is_space s) s))
                    (drop (regexp.run regexp.is_space s) s))) 0);
    [discriminate|].
  simpl. intros [= <-]. simpl.
  repeat match goal with
         | |- context [regexp.run ?p ?l] =>
             lazymatch goal with
             | _ : (regexp.run p l <= length l)%nat |- _ => fail
             | _ => pose proof (run_le p l)
             end
         end.
  rewrite !length_drop in *. lia.
Qed.

Lemma find_all_ordered text starts : forall pos,
  Forall (fun p => (p <= length text)%nat) starts ->
  Forall (fun pm => (pos <= fst pm)%nat /\
                    (fst pm + regexp.match_length (snd pm) <= length text)%nat)
         (regexp.find_all text starts pos) /\
  forall i pm pm',
    regexp.find_all text starts pos !! i = Some pm ->
    regexp.find_all text starts pos !! S i = Some pm' ->
    (fst pm + regexp.match_length (snd pm) <= fst pm')%nat.
Proof.
  induction starts as [|q starts IH]; intros pos Hstarts; simpl.
  - split; [constructor|]. intros i pm pm' H. discriminate.
  - apply Forall_cons in Hstarts as [Hq Hstarts].
    destruct (Nat.leb_spec pos q) as [Hpos|]; simpl; [|apply IH, Hstarts].
    destruct (regexp.line_start text q); [|apply IH, Hstarts].
    destruct (regexp.match_header (drop q text)) as [m|] eqn:Hm;
      [|apply IH, Hstarts].
    pose proof (match_header_length _ _ Hm) as Hl. rewrite length_drop in Hl.
    destruct (IH (q + regexp.match_length m)%nat Hstarts) as [Hall Hord].
    split.
    + constructor; [simpl; lia|].
      eapply Forall_impl; [exact Hall|]. simpl. intros pm [H1 H2]. lia.
    + intros [|i] pm pm'; simpl.
      * intros [= <-] H'. simpl.
        apply list_elem_of_lookup_2 in H'. rewrite Forall_forall in Hall.
        apply Hall in H'. lia.
      * apply Hord.
Qed.

(** Every match is within the text, is at least two bytes long, and is
    followed by the next one at or after its end. *)
Lemma FindAllStringIndex_in_range text :
  Forall (fun se => (fst se < snd se <= length text)%nat)
         (regexp.FindAllStringIndex text) /\
  forall i se se',
    regexp.FindAllStringIndex text !! i = Some se ->
    regexp.FindAllStringIndex text !! S i = Some se' ->
    (snd se <= fst se')%nat.
Proof.
  unfold regexp.FindAllStringIndex, regexp.find_headers.
  assert (Hstarts : Forall (fun p => (p <= length text)%nat)
                      (seq 0 (length text))).
  { apply Forall_forall. intros p Hp. apply elem_of_seq in Hp. lia. }
  destruct (find_all_ordered text _ 0%nat Hstarts) as [Hall Hord].
  split.
  - apply Forall_fmap. rewrite Forall_forall in *. intros [p m] Hpm.
    pose proof (Hall _ Hpm) as [_ Hin].
    apply find_all_match, match_header_length in Hpm. simpl in *. lia.
  - intros i se se'. rewrite !list_lookup_fmap.
    destruct (regexp.find_all _ _ _ !! i) as [pm|] eqn:H1; [|discriminate].
    destruct (regexp.find_all _ _ _ !! S i) as [pm'|] eqn:H2; [|discriminate].
    simpl. intros [= <-] [= <-]. simpl. eapply Hord; eauto.
Qed.

(** ** Outside the contract of the chunker *)

Lemma ChunkText_loop_zero_stride text chunkSize fuel : forall chunks,
  text <> [] -> 0 <= chunkSize <= GoInt.max_int ->
  ChunkText_loop fuel text chunkSize chunkSize 0 chunks = OutOfFuel.
Proof.
  intros chunks Htext Hsize. revert chunks.
  assert (Hlen : 0 < len text)
    by (destruct text; [congruence|unfold len; cbn [length]; lia]).
  assert (Hadd : GoInt.add 0 chunkSize = chunkSize).
  { apply wrap_id. unfold GoInt.is_int, GoInt.min_int, GoInt.max_int in *. lia. }
  assert (Hnext : GoInt.add 0 (GoInt.sub chunkSize chunkSize) = 0).
  { unfold GoInt.sub. now rewrite Z.sub_diag. }
  induction fuel as [|fuel IH]; intros chunks; [reflexivity|].
  cbn [ChunkText_loop]. destruct (Z.ltb_spec 0 (len text)); [|lia].
  rewrite Hadd, Hnext, slice_ok by lia. apply IH.
Qed.

(** With [overlap = chunkSize] the stride is zero and the loop never
    leaves its first index: on a text that is not empty the call has not
    ended, whatever the fuel. *)
Theorem ChunkText_zero_stride text chunkSize fuel :
  text <> [] -> 0 <= chunkSize <= GoInt.max_int ->
  ChunkText fuel text chunkSize chunkSize = OutOfFuel.
Proof. intros. now apply ChunkText_loop_zero_stride. Qed.

Lemma ChunkText_zero_stride_witness :
  ChunkText 1000 (str "abc") 2 2 = OutOfFuel.
Proof.
  apply ChunkText_zero_stride; [discriminate|].
  vm_compute. split; discriminate.
Defined.

(** ** Blank sections are dropped *)

Lemma sections_loop_not_blank markdown headerMatches :
  Forall (fun section => section <> []) (sections_loop markdown headerMatches).
Proof.
  induction headerMatches as [|[start end0] rest IH]; [constructor|].
  cbn [sections_loop]. apply Forall_app. split; [|exact IH].
  destruct (bool_decide_reflect
              (strings.TrimSpace
                 (substring markdown start
                    match rest with
                    | [] => length markdown
                    | (next, _) :: _ => next
                    end) <> [])); repeat constructor; assumption.
Qed.

(** When the document has a heading line, no section that
    [SplitMarkdownBySections] returns is the empty string. *)
Theorem SplitMarkdownBySections_not_blank markdown section :
  regexp.FindAllStringIndex markdown <> [] ->
  section ∈ SplitMarkdownBySections markdown -> section <> [].
Proof.
  intros Hm. unfold SplitMarkdownBySections.
  destruct (bool_decide (markdown = [])); [intros H; inversion H|].
  destruct (regexp.FindAllStringIndex markdown) as [|[first end0] rest] eqn:E;
    [congruence|].
  intros Hin. apply elem_of_app in Hin as [Hin|Hin].
  - destruct (0 <? first)%nat; [|inversion Hin].
    destruct (bool_decide_reflect
                (strings.TrimSpace (substring markdown 0 first) <> []))
      as [Hne|]; [|inversion Hin].
    apply list_elem_of_singleton in Hin. now subst.
  - pose proof (sections_loop_not_blank markdown ((first, end0) :: rest)) as Hall.
    rewrite Forall_forall in Hall. now apply Hall.
Qed.

Lemma SplitMarkdownBySections_not_blank_witness :
  SplitMarkdownBySections (str "# A" ++ [NL] ++ str "text") 
  = [str "# A" ++ [NL] ++ str "text"] /\
  str "# A" ++ [NL] ++ str "text" <> [].
Proof.
  split; [reflexivity|].
  apply (SplitMarkdownBySections_not_blank (str "# A" ++ [NL] ++ str "text")).
  - vm_compute. discriminate.
  - apply list_elem_of_lookup. exists 0%nat. reflexivity.
Defined.

(** * Further properties of the code *)

(** ** The fixed-window chunker: count, overlap, partition *)

Lemma take_add_app {A} (l : list A) a b :
  take (a + b) l = take a l ++ take b (drop a l).
Proof.
  revert l. induction a as [|a IH]; intros [|x l]; simpl;
    try reflexivity; [now rewrite take_nil|]. now rewrite IH.
Qed.

Lemma concat_windows text cs n : forall start,
  concat (windows text cs cs start n) = take (n * cs) (drop start text).
Proof.
  induction n as [|n IH]; intros start; simpl; [reflexivity|].
  rewrite IH, take_add_app, drop_drop. reflexivity.
Qed.

(** The chunks that [ChunkText] returns on valid arguments, as windows. *)
Lemma ChunkText_windows text chunkSize overlap fuel chunks :
  0 < chunkSize -> 0 <= overlap < chunkSize ->
  GoInt.is_int chunkSize -> len text <= GoInt.max_int ->
  ChunkText fuel text chunkSize overlap = Returns chunks ->
  exists n,
    chunks = windows text (Z.to_nat chunkSize)
               (Z.to_nat (chunkSize - overlap)) 0 n /\
    (length text <= n * Z.to_nat (chunkSize - overlap))%nat /\
    ((0 < n)%nat -> ((n - 1) * Z.to_nat (chunkSize - overlap) < length text)%nat).
Proof.
  intros Hsize Hov Hint Hlen Hrun. unfold ChunkText in Hrun.
  change 0 with (Z.of_nat 0) in Hrun.
  apply ChunkText_loop_inv in Hrun as (n & -> & Hreach & Hlast & _); auto.
  exists n. simpl in *. auto.
Qed.



(** Two chunks in a row overlap as asked: what is left of a chunk after
    [chunkSize - overlap] bytes is the first [overlap] bytes of the next
    chunk. *)
Theorem ChunkText_overlap text chunkSize overlap fuel chunks i c c' :
  0 < chunkSize -> 0 <= overlap < chunkSize ->
  GoInt.is_int chunkSize -> len text <= GoInt.max_int ->
  ChunkText fuel text chunkSize overlap = Returns chunks ->
  chunks !! i = Some c -> chunks !! S i = Some c' ->
  drop (Z.to_nat (chunkSize - overlap)) c = take (Z.to_nat overlap) c'.
Proof.
  intros Hsize Hov Hint Hlen Hrun Hc Hc'.
  destruct (ChunkText_shape _ _ _ _ _ Hsize Hov Hint Hlen Hrun)
    as (Hlook & _ & Hin).
  pose proof (Hin _ (lookup_lt_Some _ _ _ Hc')) as Hnext.
  apply Hlook in Hc as [_ ->]. apply Hlook in Hc' as [_ ->].
  set (cs := Z.to_nat chunkSize) in *.
  set (st := Z.to_nat (chunkSize - overlap)) in *.
  set (ov := Z.to_nat overlap).
  assert (Hcs : cs = (st + ov)%nat) by (subst cs st ov; lia).
  rewrite Hcs, take_add_app, drop_app_length'.
  - rewrite drop_drop, take_take.
    replace (i * st + st)%nat with (S i * st)%nat by lia.
    f_equal. lia.
  - rewrite length_take, length_drop. lia.
Qed.

Lemma ChunkText_overlap_witness :
  drop 2 (str "abc") = take 1 (str "cde").
Proof.
  assert (H1 : 0 < 3) by lia.
  assert (H2 : 0 <= 1 < 3) by lia.
  assert (H3 : GoInt.is_int 3) by (vm_compute; split; discriminate).
  assert (H4 : len (str "abcdefg") <= GoInt.max_int) by (vm_compute; discriminate).
  apply (ChunkText_overlap (str "abcdefg") 3 1 5 _ 0%nat _ _ H1 H2 H3 H4
           eq_refl eq_refl eq_refl).
Defined.



(** ** The fixed-window chunker outside its contract *)

(** A negative [chunkSize], or an [overlap] above [chunkSize]: on a text
    that is not empty the call panics on a slice expression, the first
    one when [chunkSize] is negative, the second one (whose start is
    negative) otherwise. *)
Theorem ChunkText_invalid_panics text chunkSize overlap fuel :
  text <> [] ->
  GoInt.is_int chunkSize -> GoInt.is_int overlap ->
  chunkSize < 0 \/ chunkSize < overlap ->
  ChunkText (S (S fuel)) text chunkSize overlap = Panics.
Proof.
  intros Htext Hcs Hov Hbad.
  assert (Hlen : 0 < len text)
    by (destruct text; [congruence|unfold len; cbn [length]; lia]).
  assert (Hadd : GoInt.add 0 chunkSize = chunkSize) by (apply wrap_id, Hcs).
  unfold GoInt.is_int, GoInt.min_int, GoInt.max_int in Hcs, Hov.
  unfold ChunkText. cbn [ChunkText_loop].
  destruct (Z.ltb_spec 0 (len text)); [|lia]. rewrite Hadd.
  destruct (Z.ltb_spec chunkSize 0) as [Hneg|Hpos].
  - rewrite slice_bad by lia. reflexivity.
  - destruct Hbad as [|Hlt]; [lia|].
    assert (Hsub : GoInt.sub chunkSize overlap = chunkSize - overlap).
    { apply wrap_id. unfold GoInt.is_int, GoInt.min_int, GoInt.max_int. lia. }
    assert (Hnext : GoInt.add 0 (GoInt.sub chunkSize overlap)
                    = chunkSize - overlap).
    { rewrite Hsub. apply wrap_id.
      unfold GoInt.is_int, GoInt.min_int, GoInt.max_int. lia. }
    rewrite Hnext, slice_ok by lia.
    destruct (Z.ltb_spec (chunkSize - overlap) (len text)); [|lia].
    unfold slice. destruct (Z.leb_spec 0 (chunkSize - overlap)); [lia|].
    reflexivity.
Qed.

Lemma ChunkText_invalid_panics_witness :
  ChunkText 10 (str "abc") 2 3 = Panics.
Proof.
  apply (ChunkText_invalid_panics (str "abc") 2 3 8);
    [discriminate | vm_compute; split; discriminate
    | vm_compute; split; discriminate | right; lia].
Defined.

(** ** The chunk handler *)

Lemma ChunkText_chunk_bounds text chunkSize overlap fuel chunks :
  0 < chunkSize -> 0 <= overlap < chunkSize ->
  GoInt.is_int chunkSize -> len text <= GoInt.max_int ->
  ChunkText fuel text chunkSize overlap = Returns chunks ->
  (text <> [] -> chunks <> []) /\
  forall c, c ∈ chunks -> 1 <= len c <= chunkSize.
Proof.
  intros Hsize Hov Hint Hlen Hrun.
  destruct (ChunkText_shape _ _ _ _ _ Hsize Hov Hint Hlen Hrun)
    as (Hlook & Hreach & Hin).
  split.
  - intros Htext ->. simpl in Hreach. destruct text; [congruence|].
    simpl in Hreach. lia.
  - intros c Hc. apply list_elem_of_lookup in Hc as [i Hi].
    pose proof (Hin _ (lookup_lt_Some _ _ _ Hi)) as Hstart.
    apply Hlook in Hi as [_ ->]. unfold len.
    rewrite length_take, length_drop. lia.
Qed.



(** ** The delimiter chunker: the pieces *)

Lemma HasPrefix_self p t : strings.HasPrefix (p ++ t) p = true.
Proof.
  induction p as [|a p IH]; [reflexivity|]. simpl.
  now rewrite Ascii.eqb_refl.
Qed.

Lemma HasPrefix_take n s p :
  strings.HasPrefix (take n s) p = true -> strings.HasPrefix s p = true.
Proof.
  revert n s. induction p as [|a p IH]; intros n s; [reflexivity|].
  destruct n as [|n]; destruct s as [|c s]; simpl; try discriminate.
  destruct (Ascii.eqb a c); [apply IH|discriminate].
Qed.

Lemma Index_HasPrefix s p i :
  strings.Index s p = Some i -> strings.HasPrefix (drop i s) p = true.
Proof.
  intros H. apply strings.Index_Some in H. rewrite H. apply HasPrefix_self.
Qed.

(** [Index] gives the first occurrence. *)
Lemma Index_first s p : forall i j,
  strings.Index s p = Some i -> (j < i)%nat ->
  strings.HasPrefix (drop j s) p = false.
Proof.
  induction s as [|c s IH]; intros i j; cbn [strings.Index].
  - destruct (strings.HasPrefix [] p); [intros [= <-]; lia|discriminate].
  - destruct (strings.HasPrefix (c :: s) p) eqn:E; [intros [= <-]; lia|].
    destruct (strings.Index s p) as [i'|] eqn:Hi; [|discriminate].
    simpl. intros [= <-] Hj. destruct j as [|j]; [exact E|].
    simpl. apply (IH i'); [reflexivity|lia].
Qed.

Lemma Index_take_None s c d i :
  strings.Index s (c :: d) = Some i ->
  strings.Index (take i s) (c :: d) = None.
Proof.
  intros Hi. destruct (strings.Index (take i s) (c :: d)) as [j|] eqn:Hj;
    [|reflexivity].
  exfalso. pose proof (strings.Index_bound _ _ _ Hj) as Hb.
  rewrite length_take in Hb. cbn [length] in Hb.
  apply Index_HasPrefix in Hj. rewrite skipn_firstn_comm in Hj.
  apply HasPrefix_take in Hj.
  rewrite (Index_first s (c :: d) i j Hi) in Hj by lia. discriminate.
Qed.

(** With as many turns as there are separators, the loop of [genSplit]
    cuts one piece more than there are separators, and no piece holds
    the separator. *)
Lemma genSplit_loop_pieces c d s :
  length (strings.genSplit_loop (strings.Count_loop s (c :: d) 0) s (c :: d))
  = S (strings.Count_loop s (c :: d) 0) /\
  Forall (fun piece => strings.Index piece (c :: d) = None)
         (strings.genSplit_loop (strings.Count_loop s (c :: d) 0) s (c :: d)).
Proof.
  induction s as [s IH] using length_ind.
  rewrite Count_loop_unfold.
  destruct (strings.Index s (c :: d)) as [i|] eqn:Hi.
  - rewrite Count_loop_S. cbn [strings.genSplit_loop]. rewrite Hi.
    assert (Hlt : (length (drop (i + length (c :: d)) s) < length s)%nat).
    { apply strings.Index_bound in Hi. rewrite length_drop.
      cbn [length] in *. lia. }
    destruct (IH _ Hlt) as [Hl Hall]. cbn [length] in *. split.
    + now rewrite Hl.
    + constructor; [now apply Index_take_None|exact Hall].
  - simpl. split; [reflexivity|]. repeat constructor. exact Hi.
Qed.

(** For a delimiter that is not empty, [SplitTextWithDelimiter] returns
    one piece more than the text has (non-overlapping) delimiters, and
    no piece contains the delimiter. *)
Theorem SplitTextWithDelimiter_delimiter_free text delimiter :
  delimiter <> [] ->
  length (SplitTextWithDelimiter text delimiter)
  = S (strings.Count text delimiter) /\
  forall piece, piece ∈ SplitTextWithDelimiter text delimiter ->
    strings.Index piece delimiter = None.
Proof.
  intros Hd. destruct delimiter as [|c d]; [congruence|].
  unfold SplitTextWithDelimiter. rewrite Split_Count.
  destruct (genSplit_loop_pieces c d text) as [Hl Hall].
  split; [exact Hl|]. now apply Forall_forall.
Qed.

Lemma SplitTextWithDelimiter_delimiter_free_witness :
  length (SplitTextWithDelimiter (str "a--b----c") (str "--")) = 4%nat /\
  strings.Index (str "a") (str "--") = None.
Proof.
  destruct (SplitTextWithDelimiter_delimiter_free (str "a--b----c") (str "--"))
    as [Hl Hfree]; [discriminate|].
  split; [exact Hl|]. apply Hfree.
  apply list_elem_of_lookup. exists 0%nat. reflexivity.
Defined.

(** ** The header of a piece of the delimiter chunker *)

(** The loop of [ExtractFirstNonEmptyLines] keeps the first [n] lines
    that are not blank, trimmed. *)
Lemma firstNonEmptyLines_spec n lines : forall nonEmptyLines,
  (length nonEmptyLines < Z.to_nat n)%nat ->
  firstNonEmptyLines lines n nonEmptyLines
  = take (Z.to_nat n)
      (nonEmptyLines
         ++ filter (fun line => line <> []) (map strings.TrimSpace lines)).
Proof.
  induction lines as [|line lines IH]; intros acc Hacc; simpl.
  - rewrite filter_nil, app_nil_r, take_ge by lia. reflexivity.
  - rewrite filter_cons.
    destruct (bool_decide_reflect (strings.TrimSpace line <> [])) as [Hne|He].
    + rewrite decide_True by exact Hne.
      destruct (Z.geb_spec (len (acc ++ [strings.TrimSpace line])) n) as [Hfull|Hroom].
      * unfold len in Hfull. rewrite length_app in Hfull. simpl in Hfull.
        replace (acc ++ strings.TrimSpace line
                   :: filter (fun line0 => line0 <> [])
                        (map strings.TrimSpace lines))
          with ((acc ++ [strings.TrimSpace line])
                  ++ filter (fun line0 => line0 <> [])
                       (map strings.TrimSpace lines))
          by (now rewrite <- app_assoc).
        rewrite take_app_length'; [reflexivity|].
        rewrite length_app. simpl. lia.
      * unfold len in Hroom. rewrite length_app in Hroom. simpl in Hroom.
        rewrite IH by (rewrite length_app; simpl; lia).
        now rewrite <- app_assoc.
    + rewrite decide_False by exact He. apply IH, Hacc.
Qed.

Lemma Join_eq_nil elems sep :
  Forall (fun e => e <> []) elems -> strings.Join elems sep = [] -> elems = [].
Proof.
  intros Hall. destruct elems as [|e rest]; [reflexivity|].
  apply Forall_cons in Hall as [He _].
  destruct rest; simpl; intros H; [congruence|].
  apply app_eq_nil in H as [H _]. congruence.
Qed.

(** [ExtractFirstNonEmptyLines(text, n)] is the empty string when the
    text is empty or [n <= 0]; otherwise it is the first [n] lines of
    the text that are not blank, each trimmed, joined by newlines.  So
    it is empty exactly when the text has no line that is not blank. *)
Theorem ExtractFirstNonEmptyLines_spec text n :
  let kept := filter (fun line => line <> [])
                (map strings.TrimSpace (strings.Split text [NL])) in
  (text = [] \/ n <= 0 -> ExtractFirstNonEmptyLines text n = []) /\
  (text <> [] -> 0 < n ->
   ExtractFirstNonEmptyLines text n
   = strings.Join (take (Z.to_nat n) kept) [NL] /\
   (ExtractFirstNonEmptyLines text n = [] <-> kept = [])).
Proof.
  cbv zeta. unfold ExtractFirstNonEmptyLines. split.
  - intros [->|Hn]; [reflexivity|].
    destruct (Z.leb_spec n 0); [|lia]. now rewrite orb_true_r.
  - intros Htext Hn.
    rewrite bool_decide_false by exact Htext.
    destruct (Z.leb_spec n 0); [lia|]. simpl.
    rewrite firstNonEmptyLines_spec by (simpl; lia). simpl.
    split; [reflexivity|]. split.
    + intros Hnil. apply Join_eq_nil in Hnil.
      * destruct (filter _ _) eqn:E; [reflexivity|].
        destruct (Z.to_nat n) eqn:En; [lia|]. discriminate.
      * apply Forall_take, Forall_forall. intros e He.
        apply list_elem_of_filter in He. tauto.
    + intros ->. now rewrite take_nil.
Qed.

Lemma ExtractFirstNonEmptyLines_spec_witness :
  ExtractFirstNonEmptyLines (str "  k: v " ++ [NL; NL] ++ str "b" ++ [NL] ++ str "c") 2
  = str "k: v" ++ [NL] ++ str "b".
Proof.
  destruct (ExtractFirstNonEmptyLines_spec
              (str "  k: v " ++ [NL; NL] ++ str "b" ++ [NL] ++ str "c") 2)
    as [_ H].
  destruct H as [-> _]; [discriminate|lia|]. reflexivity.
Defined.

(** ** Trimming keeps the first byte that is not a space *)

Lemma skip_ascii_space_spaces ws c rest :
  Forall ascii_space ws -> ascii_non_space c ->
  strings.skip_ascii_space (ws ++ c :: rest) = (c :: rest, false).
Proof.
  intros Hws [Hc1 Hc2]. induction Hws as [|w ws [Hw1 Hw2] _ IH]; simpl.
  - destruct (Z.leb_spec utf8.RuneSelf (byte c)); [unfold utf8.RuneSelf in *; lia|].
    now rewrite Hc2.
  - destruct (Z.leb_spec utf8.RuneSelf (byte w)); [unfold utf8.RuneSelf in *; lia|].
    now rewrite Hw2.
Qed.

Lemma skip_ascii_space_last l c :
  ascii_non_space c ->
  exists l' slow, strings.skip_ascii_space (l ++ [c]) = (l' ++ [c], slow).
Proof.
  intros [Hc1 Hc2]. induction l as [|x l IH]; simpl.
  - destruct (Z.leb_spec utf8.RuneSelf (byte c)); [unfold utf8.RuneSelf in *; lia|].
    rewrite Hc2. now exists [], false.
  - destruct (utf8.RuneSelf <=? byte x); [now exists (x :: l), true|].
    destruct (strings.asciiSpace x); [exact IH|now exists (x :: l), false].
Qed.

Lemma DecodeRuneInString_ascii c t :
  byte c < 128 -> utf8.DecodeRuneInString (c :: t) = (byte c, 1%nat).
Proof.
  intros Hc. unfold utf8.DecodeRuneInString, utf8.first.
  destruct (Z.ltb_spec (byte c) 128); [reflexivity|lia].
Qed.

Lemma ascii_non_space_IsSpace c :
  ascii_non_space c -> unicode.IsSpace (byte c) = false.
Proof.
  intros [Hc1 Hc2]. unfold unicode.IsSpace, strings.asciiSpace in *.
  cbv zeta in Hc2. destruct (Z.leb_spec (byte c) 255); [|lia].
  apply orb_false_iff in Hc2 as [Hc2 H32].
  rewrite Hc2, H32. simpl.
  destruct (Z.eqb_spec (byte c) 133); [lia|].
  destruct (Z.eqb_spec (byte c) 160); [lia|reflexivity].
Qed.

(** When the last rune of a string that starts with an ASCII byte spans
    the whole string, it is that byte (or the string is not UTF-8). *)
Lemma DecodeLastRuneInString_whole c t :
  byte c < 128 ->
  (length (c :: t) <= snd (utf8.DecodeLastRuneInString (c :: t)))%nat ->
  fst (utf8.DecodeLastRuneInString (c :: t)) = byte c \/
  fst (utf8.DecodeLastRuneInString (c :: t)) = utf8.RuneError.
Proof.
  intros Hc. unfold utf8.DecodeLastRuneInString. cbv zeta.
  destruct (Z.eqb_spec (len (c :: t)) 0) as [E|_];
    [unfold len in E; cbn [length] in E; lia|].
  match goal with
  | |- context [utf8.scan_back ?n ?l ?a ?b] =>
      generalize (utf8.scan_back n l a b)
  end.
  intros start.
  destruct (_ <? utf8.RuneSelf) eqn:Hlast.
  - simpl. intros Hl. left. destruct t; [|simpl in Hl; lia]. reflexivity.
  - destruct (Z.ltb_spec start 0) as [Hneg|Hpos].
    + replace (drop (Z.to_nat 0) (c :: t)) with (c :: t) by reflexivity.
      rewrite DecodeRuneInString_ascii by exact Hc.
      destruct (negb _); simpl; auto.
    + destruct (utf8.DecodeRuneInString (drop (Z.to_nat start) (c :: t)))
        as [r size] eqn:Hd.
      destruct (negb _) eqn:Hn; simpl; [auto|].
      apply negb_false_iff, Z.eqb_eq in Hn. unfold len in Hn.
      intros Hl. cbn [length snd] in *. assert (start = 0) by lia. subst start.
      replace (drop (Z.to_nat 0) (c :: t)) with (c :: t) in Hd by reflexivity.
      rewrite DecodeRuneInString_ascii in Hd by exact Hc.
      injection Hd as <- <-. now left.
Qed.

Lemma lastIndexFunc_unfold c s :
  strings.lastIndexFunc (c :: s) unicode.IsSpace false
  = let d := utf8.DecodeLastRuneInString (c :: s) in
    let i := (length (c :: s) - snd d)%nat in
    if Bool.eqb (unicode.IsSpace (fst d)) false then Some i
    else strings.lastIndexFunc (take i (c :: s)) unicode.IsSpace false.
Proof. now rewrite strings.lastIndexFunc_equation_2. Qed.

(** Looking from the end for a rune that is not a space stops, at the
    latest, on a first byte that is ASCII and not a space. *)
Lemma lastIndexFunc_found c : forall t,
  ascii_non_space c ->
  exists i, strings.lastIndexFunc (c :: t) unicode.IsSpace false = Some i.
Proof.
  intros t Hc. remember (length t) as m eqn:Hm. revert t Hm.
  induction m as [m IH] using lt_wf_ind. intros t ->.
  rewrite lastIndexFunc_unfold. cbv zeta.
  destruct (Bool.eqb _ false) eqn:Hsp; [eauto|].
  apply Bool.eqb_false_iff in Hsp.
  pose proof (DecodeLastRuneInString_size c t) as Hsize.
  destruct (length (c :: t) - snd (utf8.DecodeLastRuneInString (c :: t)))%nat
    as [|i] eqn:Hi.
  - exfalso.
    destruct (DecodeLastRuneInString_whole c t (proj1 Hc) ltac:(lia)) as [E|E];
      rewrite E in Hsp; apply Hsp.
    + now apply ascii_non_space_IsSpace.
    + reflexivity.
  - cbn [take]. apply (IH (length (take i t))); [|reflexivity].
    rewrite length_take. cbn [length] in Hi. lia.
Qed.

Lemma TrimRightFunc_first c t :
  ascii_non_space c ->
  exists t', strings.TrimRightFunc (c :: t) unicode.IsSpace = c :: t'.
Proof.
  intros Hc. unfold strings.TrimRightFunc.
  destruct (lastIndexFunc_found c t Hc) as [i ->].
  destruct (Z.leb_spec utf8.RuneSelf (byte (nth i (c :: t) zero))) as [Hbig|_].
  - destruct i as [|i]; [simpl in Hbig; destruct Hc; unfold utf8.RuneSelf in *; lia|].
    simpl. eauto.
  - simpl. eauto.
Qed.

Lemma TrimSpace_first ws c rest :
  Forall ascii_space ws -> ascii_non_space c ->
  exists t, strings.TrimSpace (ws ++ c :: rest) = c :: t.
Proof.
  intros Hws Hc. unfold strings.TrimSpace.
  rewrite (skip_ascii_space_spaces ws c rest Hws Hc).
  change (rev (c :: rest)) with (rev rest ++ [c]).
  destruct (skip_ascii_space_last (rev rest) c Hc) as (l' & slow & ->).
  rewrite rev_app_distr. simpl.
  destruct slow; [apply TrimRightFunc_first, Hc|eauto].
Qed.

(** ** The sections of a document with heading lines *)

Lemma run_Forall (p : ascii -> bool) s :
  Forall (fun c => p c = true) (take (regexp.run p s) s).
Proof.
  induction s as [|c s IH]; [constructor|]. simpl.
  destruct (p c) eqn:Hc; [|constructor]. simpl. now constructor.
Qed.

Lemma run_pos (p : ascii -> bool) s :
  regexp.run p s <> 0%nat -> exists c rest, s = c :: rest /\ p c = true.
Proof.
  destruct s as [|c s]; simpl; [congruence|].
  destruct (p c) eqn:Hc; [eauto|congruence].
Qed.

Lemma is_space_ascii_space c : regexp.is_space c = true -> ascii_space c.
Proof.
  unfold regexp.is_space, ascii_space. cbv zeta. intros H.
  assert (Hb : byte c = 9 \/ byte c = 10 \/ byte c = 12 \/ byte c = 13
               \/ byte c = 32).
  { repeat (apply orb_true_iff in H as [H|H]);
      apply Z.eqb_eq in H; lia. }
  assert (Hc : c = ascii_of_N (Z.to_N (byte c))).
  { unfold byte. now rewrite N2Z.id, ascii_N_embedding. }
  rewrite Hc.
  destruct Hb as [-> | [-> | [-> | [-> | ->]]]]; vm_compute; split; congruence.
Qed.

Lemma is_hash_eq c : regexp.is_hash c = true -> c = "#"%char.
Proof.
  unfold regexp.is_hash. intros H. apply Z.eqb_eq in H.
  assert (Hc : c = ascii_of_N (Z.to_N (byte c))).
  { unfold byte. now rewrite N2Z.id, ascii_N_embedding. }
  rewrite Hc, H. reflexivity.
Qed.

Lemma hash_non_space : ascii_non_space "#"%char.
Proof. split; [vm_compute|]; reflexivity. Qed.

(** A match is a run of spaces and then a [#]. *)
Lemma match_header_lead s m :
  regexp.match_header s = Some m ->
  exists ws rest,
    s = ws ++ "#"%char :: rest /\ length ws = regexp.lead m /\
    Forall ascii_space ws.
Proof.
  unfold regexp.match_header. cbv zeta.
  destruct (Nat.eqb_spec (regexp.run regexp.is_hash
                            (drop (regexp.run regexp.is_space s) s)) 0)
    as [|Hh]; [discriminate|].
  destruct (_ =? _)%nat; [discriminate|]. simpl. intros [= <-]. simpl.
  apply run_pos in Hh as (c & rest & Hs & Hc). apply is_hash_eq in Hc as ->.
  exists (take (regexp.run regexp.is_space s) s), rest. split; [|split].
  - rewrite <- Hs. now rewrite take_drop.
  - rewrite length_take. pose proof (run_le regexp.is_space s). lia.
  - eapply Forall_impl; [apply run_Forall|]. apply is_space_ascii_space.
Qed.

(** The text from the start of a match to any point after the match
    starts, once trimmed, with a [#]. *)
Lemma TrimSpace_from_match text p m e :
  regexp.match_header (drop p text) = Some m ->
  (p + regexp.match_length m <= e)%nat ->
  strings.HasPrefix (strings.TrimSpace (substring text p e)) (str "#") = true.
Proof.
  intros Hm He.
  pose proof (match_header_length _ _ Hm) as [Hl _].
  assert (Hh : (1 <= regexp.hashes m)%nat).
  { revert Hm. unfold regexp.match_header. cbv zeta.
    destruct (Nat.eqb_spec (regexp.run regexp.is_hash
                (drop (regexp.run regexp.is_space (drop p text)) (drop p text)))
                0) as [|Hh]; [discriminate|].
    destruct (_ =? _)%nat; [discriminate|]. simpl. intros [= <-]. simpl. lia. }
  destruct (match_header_lead _ _ Hm) as (ws & rest & Hs & Hws & Hsp).
  unfold substring. rewrite Hs.
  rewrite take_app_ge by (unfold regexp.match_length in He; lia).
  destruct (e - p - length ws)%nat as [|k] eqn:Hk;
    [unfold regexp.match_length in He; lia|].
  cbn [take].
  destruct (TrimSpace_first ws "#"%char (take k rest) Hsp hash_non_space)
    as [t ->].
  reflexivity.
Qed.

Lemma sections_loop_headings text starts : forall pos,
  Forall (fun p => (p <= length text)%nat) starts ->
  let headerMatches :=
    map (fun pm => (fst pm, (fst pm + regexp.match_length (snd pm))%nat))
        (regexp.find_all text starts pos) in
  length (sections_loop text headerMatches) = length headerMatches /\
  Forall (fun section => strings.HasPrefix section (str "#") = true)
         (sections_loop text headerMatches).
Proof.
  induction starts as [|q starts IH]; intros pos Hstarts; cbv zeta.
  - simpl. split; [reflexivity|constructor].
  - pose proof Hstarts as Hall. apply Forall_cons in Hstarts as [Hq Hstarts].
    cbn [regexp.find_all].
    destruct ((pos <=? q)%nat && regexp.line_start text q);
      [|apply IH, Hstarts].
    destruct (regexp.match_header (drop q text)) as [m|] eqn:Hm;
      [|apply IH, Hstarts].
    destruct (IH (q + regexp.match_length m)%nat Hstarts) as [IHlen IHall].
    destruct (find_all_ordered text starts (q + regexp.match_length m)%nat
                Hstarts) as [Hord _].
    pose proof (match_header_length _ _ Hm) as [_ Hl].
    rewrite length_drop in Hl.
    cbn [map sections_loop fst snd].
    set (rest := map _ (regexp.find_all text starts _)) in *.
    set (end_ := match rest with [] => length text | (next, _) :: _ => next end).
    assert (Hend : (q + regexp.match_length m <= end_)%nat).
    { subst end_ rest.
      destruct (regexp.find_all text starts (q + regexp.match_length m))
        as [|[p' m'] l]; simpl; [lia|].
      apply Forall_cons in Hord as [[H _] _]. exact H. }
    pose proof (TrimSpace_from_match text q m end_ Hm Hend) as Hsec.
    destruct (strings.TrimSpace (substring text q end_)) as [|c t] eqn:Et;
      [discriminate|].
    rewrite bool_decide_true by discriminate.
    split.
    + simpl. now rewrite IHlen.
    + constructor; assumption.
Qed.



(** The section tool never answers "No sections generated from the
    document": a document that passes the check of the parameter has at
    least one section. *)
Theorem split_and_store_markdown_sections_some fuel embeddingDim document :
  Mcptools.split_and_store_markdown_sections fuel embeddingDim document
  <> inl Mcptools.NoSectionsGenerated /\
  (document <> [] -> SplitMarkdownBySections document <> []).
Proof.
  assert (Hsome : document <> [] -> SplitMarkdownBySections document <> []).
  { intros Hdoc.
    destruct (regexp.FindAllStringIndex document) as [|se rest] eqn:E.
    - rewrite (SplitMarkdownBySections_no_header _ E).
      now rewrite bool_decide_false.
    - assert (Hm : regexp.FindAllStringIndex document <> []) by congruence.
      assert (Hstarts : Forall (fun p => (p <= length document)%nat)
                          (seq 0 (length document))).
      { apply Forall_forall. intros p Hp. apply elem_of_seq in Hp. lia. }
      destruct (sections_loop_headings document _ 0%nat Hstarts) as [Hlen _].
      fold (regexp.find_headers document) in Hlen.
      fold (regexp.FindAllStringIndex document) in Hlen.
      unfold SplitMarkdownBySections.
      rewrite bool_decide_false by exact Hdoc. rewrite E. rewrite E in Hlen.
      destruct (sections_loop document (se :: rest)); [discriminate|].
      destruct se as [first end0].
      now destruct (if (0 <? first)%nat then _ else _). }
  split; [|exact Hsome].
  unfold Mcptools.split_and_store_markdown_sections.
  destruct (bool_decide_reflect (document = [])) as [|Hdoc]; [discriminate|].
  destruct (Z.eqb_spec (len (SplitMarkdownBySections document)) 0) as [H0|];
    [|discriminate].
  exfalso. apply (Hsome Hdoc). unfold len in H0.
  destruct (SplitMarkdownBySections document); [reflexivity|simpl in H0; lia].
Qed.

(** ** The header of a section *)

(** [ExtractSectionHeader] gives the empty string exactly for a section
    without heading line; the header of any other section starts with
    [#]. *)
Theorem ExtractSectionHeader_heading section :
  (regexp.FindAllStringIndex section = [] ->
   ExtractSectionHeader section = []) /\
  (regexp.FindAllStringIndex section <> [] ->
   strings.HasPrefix (ExtractSectionHeader section) (str "#") = true).
Proof.
  unfold ExtractSectionHeader, regexp.FindAllStringIndex,
    regexp.FindStringSubmatch.
  destruct (bool_decide_reflect (section = [])) as [->|Hne].
  { split; [reflexivity|]. intros H. now contradiction H. }
  destruct (regexp.find_headers section) as [|[p m] rest] eqn:E.
  { split; [reflexivity|]. intros H. now contradiction H. }
  split; [discriminate|]. intros _.
  assert (Hm : regexp.match_header (drop p section) = Some m).
  { apply (find_all_match section (seq 0 (length section)) 0%nat).
    fold (regexp.find_headers section). rewrite E. apply list_elem_of_here. }
  pose proof (match_header_length _ _ Hm) as [Hl _].
  destruct (match_header_lead _ _ Hm) as (ws & tl & Hs & Hws & _).
  assert (Hh : (1 <= regexp.hashes m)%nat).
  { revert Hm. unfold regexp.match_header. cbv zeta.
    destruct (Nat.eqb_spec (regexp.run regexp.is_hash
                (drop (regexp.run regexp.is_space (drop p section))
                   (drop p section))) 0) as [|Hh]; [discriminate|].
    destruct (_ =? _)%nat; [discriminate|]. simpl. intros [= <-]. simpl. lia. }
  unfold substring.
  replace (drop (p + regexp.lead m) section)
    with (drop (regexp.lead m) (drop p section))
    by (rewrite drop_drop; reflexivity).
  rewrite Hs, <- Hws, drop_app_length.
  destruct (p + regexp.match_length m - (p + length ws))%nat as [|k] eqn:Hk;
    [unfold regexp.match_length in Hk; lia|].
  cbn [take].
  destruct (TrimSpace_first [] "#"%char (take k tl) (Forall_nil_2 _)
              hash_non_space) as [t Ht].
  simpl in Ht. rewrite Ht. reflexivity.
Qed.

Lemma ExtractSectionHeader_heading_witness :
  ExtractSectionHeader (str "plain text") = [] /\
  strings.HasPrefix
    (ExtractSectionHeader (str "## Setup" ++ [NL] ++ str "run it"))
    (str "#") = true.
Proof.
  split.
  - apply (proj1 (ExtractSectionHeader_heading (str "plain text"))).
    reflexivity.
  - apply (proj2 (ExtractSectionHeader_heading
                    (str "## Setup" ++ [NL] ++ str "run it"))).
    vm_compute. discriminate.
Defined.

(** ** What the tools store *)

Lemma store_all_parts body pieces : forall stored,
  Mcptools.store_all body pieces = Returns stored ->
  exists parts,
    Forall2 (fun piece part => body piece = Returns part) pieces parts /\
    stored = concat parts.
Proof.
  induction pieces as [|piece rest IH]; intros stored; simpl.
  - intros [= <-]. exists []. split; [constructor|reflexivity].
  - destruct (body piece) as [part| |] eqn:Hb; try discriminate.
    destruct (Mcptools.store_all body rest) as [stored'| |]; try discriminate.
    intros [= <-]. destruct (IH _ eq_refl) as (parts & Hparts & ->).
    exists (part :: parts). split; [now constructor|reflexivity].
Qed.

(** The loop of the hierarchy tool and of the hierarchy handler over the
    chunks: when it ends, the chunks it stores are within the embedding
    dimension, and put end to end they are the chunks it was given put
    end to end: subdividing loses nothing and adds nothing. *)
Theorem hierarchy_store_all_partition fuel embeddingDim chunks stored :
  0 < embeddingDim -> GoInt.is_int embeddingDim ->
  Forall (fun chunk => len chunk <= GoInt.max_int) chunks ->
  Mcptools.store_all (Mcptools.hierarchy_chunksToStore fuel embeddingDim) chunks
  = Returns stored ->
  concat stored = concat chunks /\
  Forall (fun c => len c <= embeddingDim) stored.
Proof.
  intros Hdim Hint Hlens Hrun.
  apply store_all_parts in Hrun as (parts & Hparts & ->).
  induction Hparts as [|chunk part chunks parts Hbody _ IH]; simpl.
  - split; [reflexivity|constructor].
  - apply Forall_cons in Hlens as [Hlen Hlens].
    destruct (IH Hlens) as [IHc IHl]. rewrite concat_app, IHc.
    unfold Mcptools.hierarchy_chunksToStore in Hbody.
    destruct (Z.gtb_spec (len chunk) embeddingDim) as [Hbig|Hsmall].
    + split.
      * f_equal.
        destruct (ChunkText_windows chunk embeddingDim 0 fuel part Hdim
                    (conj (Z.le_refl 0) Hdim) Hint Hlen Hbody)
          as (n & -> & Hreach & _).
        replace (embeddingDim - 0) with embeddingDim in * by lia.
        rewrite concat_windows. simpl. apply take_ge. exact Hreach.
      * apply Forall_app. split; [|exact IHl].
        apply Forall_forall. intros c Hc.
        eapply (ChunkText_chunk_length chunk embeddingDim 0); eauto; lia.
    + injection Hbody as <-. simpl. rewrite app_nil_r.
      split; [reflexivity|]. constructor; [lia|exact IHl].
Qed.

Lemma hierarchy_store_all_partition_witness :
  concat [str "abc"; str "def"; str "g"; str "hi"]
  = concat [str "abcdefg"; str "hi"] /\
  Forall (fun c => len c <= 3) [str "abc"; str "def"; str "g"; str "hi"].
Proof.
  apply (hierarchy_store_all_partition 8 3 [str "abcdefg"; str "hi"]).
  - lia.
  - vm_compute; split; discriminate.
  - repeat constructor; vm_compute; discriminate.
  - reflexivity.
Defined.

Lemma store_all_small fuel embeddingDim header pieces :
  Forall (fun piece => len piece <= embeddingDim) pieces ->
  Mcptools.store_all
    (fun piece =>
       Mcptools.chunksToStore_with_header fuel embeddingDim piece (header piece))
    pieces
  = Returns pieces.
Proof.
  induction 1 as [|piece pieces Hp _ IH]; simpl; [reflexivity|].
  unfold Mcptools.chunksToStore_with_header at 1.
  destruct (Z.gtb_spec (len piece) embeddingDim); [lia|]. now rewrite IH.
Qed.

(** When no piece of the document is longer than the embedding
    dimension, the delimiter tool (and the delimiter handler, which has
    the same body) stores the pieces as they are, whatever the fuel:
    joined with the delimiter, what it stores is the document. *)
Theorem split_and_store_with_delimiter_small fuel embeddingDim document
    delimiter :
  document <> [] -> delimiter <> [] ->
  Forall (fun piece => len piece <= embeddingDim)
         (SplitTextWithDelimiter document delimiter) ->
  exists stored,
    Mcptools.split_and_store_with_delimiter fuel embeddingDim document delimiter
    = inr (Returns stored) /\
    stored = SplitTextWithDelimiter document delimiter /\
    strings.Join stored delimiter = document.
Proof.
  intros Hdoc Hdel Hsmall.
  exists (SplitTextWithDelimiter document delimiter).
  split; [|split; [reflexivity|]].
  - unfold Mcptools.split_and_store_with_delimiter.
    rewrite !bool_decide_false by assumption. cbv zeta.
    pose proof (Split_length document delimiter (or_introl Hdoc)) as Hl.
    fold (SplitTextWithDelimiter document delimiter) in Hl.
    destruct (Z.eqb_spec (len (SplitTextWithDelimiter document delimiter)) 0)
      as [H0|_]; [unfold len in H0; lia|].
    f_equal.
    apply (store_all_small fuel embeddingDim
             (fun chunk => ExtractFirstNonEmptyLines chunk 2)), Hsmall.
  - unfold SplitTextWithDelimiter, strings.Split.
    destruct delimiter as [|c d]; [congruence|]. apply Join_genSplit_loop.
Qed.

Lemma split_and_store_with_delimiter_small_witness :
  exists stored,
    Mcptools.split_and_store_with_delimiter 0 8 (str "one--two--three")
      (str "--")
    = inr (Returns stored) /\
    stored = SplitTextWithDelimiter (str "one--two--three") (str "--") /\
    strings.Join stored (str "--") = str "one--two--three".
Proof.
  apply (split_and_store_with_delimiter_small 0 8 (str "one--two--three")
           (str "--")).
  - discriminate.
  - discriminate.
  - repeat constructor; vm_compute; discriminate.
Defined.

(** The chunks stored for one piece by the section tool and by the
    delimiter tool: the first one is within the embedding dimension; a
    later one is too when the piece has no header, and otherwise can
    exceed it by the header and the two newlines put before it. *)
Theorem chunksToStore_with_header_bound fuel embeddingDim piece header stored :
  0 < embeddingDim -> GoInt.is_int embeddingDim ->
  len piece <= GoInt.max_int ->
  Mcptools.chunksToStore_with_header fuel embeddingDim piece header
  = Returns stored ->
  forall i c, stored !! i = Some c ->
    len c <= (if (i =? 0)%nat || bool_decide (header = []) then embeddingDim
              else embeddingDim + len header + 2).
Proof.
  intros Hdim Hint Hlen Hrun i c Hi.
  destruct (Z.gtb_spec (len piece) embeddingDim) as [Hbig|Hsmall].
  - destruct (ChunkText fuel piece embeddingDim 0) as [subs| |] eqn:Hsubs.
    + destruct (chunksToStore_with_header_spec fuel embeddingDim piece header
                  subs ltac:(lia) Hsubs) as (stored' & Hst & Hl & Hlook).
      rewrite Hrun in Hst. injection Hst as <-.
      assert (Hlt : (i < length subs)%nat)
        by (rewrite <- Hl; eapply lookup_lt_Some; eauto).
      destruct (lookup_lt_is_Some_2 subs i Hlt) as [sub Hsub].
      rewrite (Hlook _ _ Hsub) in Hi. injection Hi as <-.
      destruct (ChunkText_chunk_bounds _ _ _ _ _ Hdim
                  (conj (Z.le_refl 0) Hdim) Hint Hlen Hsubs) as [_ Hb].
      specialize (Hb sub (list_elem_of_lookup_2 _ _ _ Hsub)).
      destruct ((i =? 0)%nat || bool_decide (header = [])); [lia|].
      unfold len in *. rewrite !length_app. cbn [length]. lia.
    + unfold Mcptools.chunksToStore_with_header in Hrun.
      destruct (Z.gtb_spec (len piece) embeddingDim); [|lia].
      rewrite Hsubs in Hrun. discriminate.
    + unfold Mcptools.chunksToStore_with_header in Hrun.
      destruct (Z.gtb_spec (len piece) embeddingDim); [|lia].
      rewrite Hsubs in Hrun. discriminate.
  - unfold Mcptools.chunksToStore_with_header in Hrun.
    destruct (Z.gtb_spec (len piece) embeddingDim); [lia|].
    injection Hrun as <-. destruct i; [|discriminate].
    injection Hi as <-. simpl. lia.
Qed.

Lemma chunksToStore_with_header_bound_witness :
  len (str "# T" ++ [NL; NL] ++ str "abcd") <= 4 + len (str "# T") + 2.
Proof.
  assert (H1 : 0 < 4) by lia.
  assert (H2 : GoInt.is_int 4) by (vm_compute; split; discriminate).
  assert (H3 : len (str "# T" ++ [NL] ++ str "abcd") <= GoInt.max_int)
    by (vm_compute; discriminate).
  apply (chunksToStore_with_header_bound 8 4
           (str "# T" ++ [NL] ++ str "abcd") (str "# T") _ H1 H2 H3 eq_refl
           1%nat).
  reflexivity.
Defined.
